(** * Cypher builder: projection serializer, type predicates and the naming engine

    A shallow embedding of the TypeScript sources
      - [src/clauses/sub-clauses/Projection.ts]   (module [Projection])
      - the second [Projection] serializer        (module [ProjectionAlt])
      - the type predicate expression [IsType]    (module [IsType])
    together with the naming environment, the pattern compiler and the build
    entry point, which the sources only use through their interface.

    JavaScript strings are sequences of UTF-16 code units; they are modelled
    as lists of numbers so that every string the program can see is covered. *)

From Stdlib Require Import Ascii String NArith.
From stdpp Require Import base list strings gmap pretty.

(** ** JavaScript strings *)

Module JS.

Definition code_unit := N.
Definition jsstring := list code_unit.

(** The code units of an ASCII literal of the source. *)
Definition js (s : string) : jsstring :=
  Ascii.N_of_ascii <$> String.list_ascii_of_string s.

Arguments js : simpl never.

(** [\d]: the ten ASCII digits. *)
Definition is_digit (c : code_unit) : bool :=
  ((48 <=? c) && (c <=? 57))%N.

(** [\s]: ECMAScript WhiteSpace and LineTerminator code points. *)
Definition is_space (c : code_unit) : bool :=
  bool_decide (c ∈ [9; 10; 11; 12; 13; 32; 160; 5760; 8232; 8233; 8239; 8287;
                    12288; 65279]%N)
  || ((8192 <=? c) && (c <=? 8202))%N.

(** [[a-zA-Z0-9]]. *)
Definition is_alnum (c : code_unit) : bool :=
  ((97 <=? c) && (c <=? 122) || (65 <=? c) && (c <=? 90)
   || (48 <=? c) && (c <=? 57))%N.

(** [s.startsWith(p)], returning what follows the prefix. *)
Fixpoint strip_prefix (p s : jsstring) : option jsstring :=
  match p, s with
  | [], _ => Some s
  | a :: p', b :: s' => if (a =? b)%N then strip_prefix p' s' else None
  | _ :: _, [] => None
  end.

(** *** Regular expressions

    The fragment of the regular expression language the sources use: literal
    text, one-unit character classes, greedy repetition of a class,
    sequencing, ordered alternation and numbered capture groups. *)

Inductive regex : Type :=
| Lit (l : jsstring)
| Class (p : code_unit → bool)
| Many (p : code_unit → bool)
| Seq (r1 r2 : regex)
| Alt (r1 r2 : regex)
| Group (i : nat) (r : regex).

(** [c+] is [cc*]. *)
Definition Many1 (p : code_unit → bool) : regex := Seq (Class p) (Many p).

(** The match array of [RegExp.prototype.exec]: index 0 is the whole match,
    index [i] the text of group [i], [None] when the group took no part. *)
Definition captures := list (option jsstring).

(** Backtracking matcher in continuation-passing style: [k] receives the
    input left over and the captures so far, and a failure of [k] makes the
    matcher try its next choice (a shorter repetition, the next
    alternative), as the ECMAScript matcher does. *)
Fixpoint matchRe {A} (r : regex) (s : jsstring) (caps : captures)
    (k : jsstring → captures → option A) : option A :=
  match r with
  | Lit l =>
      match strip_prefix l s with
      | Some s' => k s' caps
      | None => None
      end
  | Class p =>
      match s with
      | c :: s' => if p c then k s' caps else None
      | [] => None
      end
  | Many p =>
      (fix star (s : jsstring) : option A :=
         match s with
         | c :: s' =>
             if p c then
               match star s' with
               | Some a => Some a
               | None => k s caps
               end
             else k s caps
         | [] => k s caps
         end) s
  | Seq r1 r2 => matchRe r1 s caps (λ s' caps', matchRe r2 s' caps' k)
  | Alt r1 r2 =>
      match matchRe r1 s caps k with
      | Some a => Some a
      | None => matchRe r2 s caps k
      end
  | Group i r =>
      matchRe r s caps
        (λ s' caps', k s' (<[i := Some (take (length s - length s') s)]> caps'))
  end.

(** One match attempt anchored at the start of [s], for a regular expression
    with [n] capture groups. *)
Definition exec (r : regex) (n : nat) (s : jsstring) : option captures :=
  matchRe r s (replicate (S n) None)
    (λ s' caps, Some (<[0 := Some (take (length s - length s') s)]> caps)).

(** The text of capture [i]; [undefined] is [None]. *)
Definition group (m : captures) (i : nat) : option jsstring :=
  mjoin (m !! i).

(** Truthiness of a [string | undefined] value. *)
Definition truthy (v : option jsstring) : bool :=
  match v with
  | Some (_ :: _) => true
  | _ => false
  end.

(** [v ?? ""]. *)
Definition or_empty (v : option jsstring) : jsstring :=
  match v with
  | Some x => x
  | None => []
  end.

(** [String.prototype.replace] with a global regular expression and a
    replacer function: the matches are found from left to right, each search
    resuming where the previous match ended (one unit further after an empty
    match); text between matches is copied. *)
Fixpoint replace_from (fuel : nat) (r : regex) (n : nat)
    (fn : captures → jsstring) (s : jsstring) : jsstring :=
  match fuel with
  | 0 => s
  | S fuel' =>
      match exec r n s with
      | Some m =>
          fn m ++
          match or_empty (group m 0), s with
          | (_ :: _) as w, _ => replace_from fuel' r n fn (drop (length w) s)
          | [], c :: s' => c :: replace_from fuel' r n fn s'
          | [], [] => []
          end
      | None =>
          match s with
          | c :: s' => c :: replace_from fuel' r n fn s'
          | [] => []
          end
      end
  end.

Definition replace (r : regex) (n : nat) (fn : captures → jsstring)
    (s : jsstring) : jsstring :=
  replace_from (S (length s)) r n fn s.

(** [s.split(sep)] for a separator of one code unit. *)
Fixpoint split (sep : code_unit) (s : jsstring) : list jsstring :=
  match s with
  | [] => [[]]
  | c :: s' =>
      if (c =? sep)%N then [] :: split sep s'
      else
        match split sep s' with
        | w :: ws => (c :: w) :: ws
        | [] => [[c]]
        end
  end.

(** [a.slice(-2)[0]]. *)
Definition slice_last2_head {A} (a : list A) : option A :=
  a !! (length a - 2).

(** [Array.prototype.join]. *)
Fixpoint join (sep : jsstring) (l : list jsstring) : jsstring :=
  match l with
  | [] => []
  | [x] => x
  | x :: l' => x ++ sep ++ join sep l'
  end.

End JS.
Import JS.

(** ** Rendering against a mutable environment

    A [getCypher] method receives the environment, may register names in
    it, and returns text or throws.  [M S A] is a computation over a mutable
    state [S] that returns an [A] or throws an [Err]. *)

Module Render.

Inductive result (Err S A : Type) : Type :=
| Ok (a : A) (s : S)
| Throw (e : Err).
Arguments Ok {Err S A} a s.
Arguments Throw {Err S A} e.

Definition M (Err S A : Type) : Type := S → result Err S A.

Definition ret {Err S A} (a : A) : M Err S A := λ s, Ok a s.

Definition bind {Err S A B} (c : M Err S A) (f : A → M Err S B) : M Err S B :=
  λ s, match c s with
       | Ok a s' => f a s'
       | Throw e => Throw e
       end.

Definition throw {Err S A} (e : Err) : M Err S A := λ _, Throw e.

Definition get {Err S} : M Err S S := λ s, Ok s s.
Definition put {Err S} (s : S) : M Err S () := λ _, Ok () s.

(** [Array.prototype.map] with a callback that renders: left to right. *)
Definition mapM {Err S A B} (f : A → M Err S B) : list A → M Err S (list B) :=
  fix go (l : list A) : M Err S (list B) :=
    match l with
    | [] => ret []
    | x :: l' => bind (f x) (λ y, bind (go l') (λ ys, ret (y :: ys)))
    end.

(** A method body runs over the receiver's fields and the environment.  A
    callee that is handed the environment only cannot touch the receiver. *)
Definition with_env {Err O Env A} (c : M Err Env A) : M Err (O * Env) A :=
  λ '(this, env),
    match c env with
    | Ok a env' => Ok a (this, env')
    | Throw e => Throw e
    end.

(** Read a field of the receiver. *)
Definition field {Err O Env A} (f : O → A) : M Err (O * Env) A :=
  λ '(this, env), Ok (f this) (this, env).

End Render.
Import Render.

Notation "'do' x <- c1 ;; c2" := (bind c1 (λ x, c2))
  (at level 10, x name, c1 at level 99, c2 at level 200).

(** ** The [Projection] class

    What the two versions of the class share: the fields, the constructor,
    [addColumns] and [getCypher].  [Expr] is the type of renderable column
    expressions and [compile e] stands for the call [e.getCypher(env)]. *)

Module ProjectionClass.
Section Class.
Context {Err Env Expr : Type}.
Variable compile : Expr → M Err Env jsstring.

(** [string | Variable | Literal]. *)
Inductive Alias : Type :=
| AliasString (s : jsstring)
| AliasRef (r : Expr).

(** [Expr | [Expr, string | Variable | Literal]]. *)
Inductive ProjectionColumn : Type :=
| Plain (e : Expr)
| Aliased (e : Expr) (alias : Alias).

(** ["*" | ProjectionColumn]. *)
Inductive ColumnArg : Type :=
| Star
| Col (c : ProjectionColumn).

Record Projection : Type := mkProjection {
  columns : list ProjectionColumn;
  isStar : bool;
}.

(** The [filter] callback of [addColumns] assigns [this.isStar]; the
    receiver is threaded through the iteration. *)
Fixpoint filterColumns (cs : list ColumnArg) (this : Projection)
    : list ProjectionColumn * Projection :=
  match cs with
  | [] => ([], this)
  | Star :: cs' => filterColumns cs' (mkProjection (columns this) true)
  | Col c :: cs' =>
      let '(kept, this') := filterColumns cs' this in (c :: kept, this')
  end.

Definition addColumns (cs : list ColumnArg) (this : Projection) : Projection :=
  let '(filteredColumns, this') := filterColumns cs this in
  mkProjection (columns this' ++ filteredColumns) (isStar this').

Definition new (cs : list ColumnArg) : Projection :=
  addColumns cs (mkProjection [] false).

(** [alias.getCypher(env)] unless the alias is a string. *)
Definition aliasStr (alias : Alias) : M Err Env jsstring :=
  match alias with
  | AliasString s => ret s
  | AliasRef r => compile r
  end.

Variable serializeColumn : ProjectionColumn → M Err Env jsstring.

Definition getCypher : M Err (Projection * Env) jsstring :=
  do cols <- field columns ;;
  do columnsStrs <- with_env (mapM serializeColumn cols) ;;
  do star <- field isStar ;;
  let columnsStrs := if (star : bool) then js "*" :: columnsStrs else columnsStrs in
  ret (join (js ", ") columnsStrs).
End Class.
End ProjectionClass.

(** ** [src/clauses/sub-clauses/Projection.ts] *)

Module Projection.
Export ProjectionClass.

(** [/(id:\s*this(\d+)\.id|\.id)/g] *)
Definition idRegexPattern : regex :=
  Group 1 (Alt (Seq (Lit (js "id:")) (Seq (Many is_space) (Seq (Lit (js "this"))
                 (Seq (Group 2 (Many1 is_digit)) (Lit (js ".id"))))))
               (Lit (js ".id"))).

(** [(match, idMatch, idNumber) => ...] *)
Definition idReplacer (m : captures) : jsstring :=
  let idMatch := group m 1 in
  let idNumber := group m 2 in
  if truthy idMatch then js "id: id(this" ++ or_empty idNumber ++ js ")"
  else or_empty (group m 0).

(** [/(labels:\s*this(\d+)\.labels|\.labels)/g] *)
Definition labelRegexPattern : regex :=
  Group 1 (Alt (Seq (Lit (js "labels:")) (Seq (Many is_space) (Seq (Lit (js "this"))
                 (Seq (Group 2 (Many1 is_digit)) (Lit (js ".labels"))))))
               (Lit (js ".labels"))).

(** [(match, labelMatch, labelNumber) => ...] *)
Definition labelReplacer (m : captures) : jsstring :=
  let labelMatch := group m 1 in
  let labelNumber := group m 2 in
  if truthy labelMatch then js "labels: labels(this" ++ or_empty labelNumber ++ js ")"
  else or_empty (group m 0).

Section Methods.
Context {Err Env Expr : Type}.
Variable compile : Expr → M Err Env jsstring.

Definition serializeColumn (column : ProjectionColumn (Expr:=Expr))
    : M Err Env jsstring :=
  match column with
  | Aliased e alias =>
      do exprStr <- compile e ;;
      let idReplacedString := replace idRegexPattern 2 idReplacer exprStr in
      let replacedString := replace labelRegexPattern 2 labelReplacer idReplacedString in
      do aliasStr <- aliasStr compile alias ;;
      ret (replacedString ++ js " AS " ++ aliasStr)
  | Plain e =>
      do cypher <- compile e ;;
      let idReplacedString := replace idRegexPattern 2 idReplacer cypher in
      let replacedString := replace labelRegexPattern 2 labelReplacer idReplacedString in
      ret replacedString
  end.

Definition getCypher : M Err (Projection * Env) jsstring :=
  ProjectionClass.getCypher serializeColumn.
End Methods.
End Projection.

(** ** The second version of [Projection.ts] *)

Module ProjectionAlt.
Export ProjectionClass.

(** [/(\.id|\.labels)/g] *)
Definition regexPattern : regex :=
  Group 1 (Alt (Lit (js ".id")) (Lit (js ".labels"))).

(** [(match, group1) => ...] with the variable name of the enclosing scope. *)
Definition replacer (varName : jsstring) (m : captures) : jsstring :=
  let group1 := group m 1 in
  if bool_decide (group1 = Some (js ".id")) then
    js "id: id(" ++ varName ++ js ")"
  else if bool_decide (group1 = Some (js ".labels")) then
    js "labels: labels(" ++ varName ++ js ")"
  else or_empty (group m 0).

(** [/[^a-zA-Z0-9]/g] *)
Definition nonAlnum : regex := Class (λ c, negb (is_alnum c)).

(** [cypher?.split("{")[0]?.split(" ")?.slice(-2)[0]?.replace(/[^a-zA-Z0-9]/g, "")] *)
Definition variableMatch (cypher : jsstring) : option jsstring :=
  a ← split 123%N cypher !! 0;
  b ← slice_last2_head (split 32%N a);
  Some (replace nonAlnum 0 (λ _, []) b).

(** A template literal prints an absent value as [undefined]. *)
Definition template (v : option jsstring) : jsstring :=
  default (js "undefined") v.

Section Methods.
Context {Err Env Expr : Type}.
Variable compile : Expr → M Err Env jsstring.

Definition serializeColumn (column : ProjectionColumn (Expr:=Expr))
    : M Err Env jsstring :=
  match column with
  | Aliased e alias =>
      do exprStr <- compile e ;;
      let varName := template (split 32%N exprStr !! 0) in
      let replacedString := replace regexPattern 1 (replacer varName) exprStr in
      do aliasStr <- aliasStr compile alias ;;
      ret (replacedString ++ js " AS " ++ aliasStr)
  | Plain e =>
      do cypher <- compile e ;;
      let variableMatch := variableMatch cypher in
      if truthy variableMatch then
        let replacedString :=
          replace regexPattern 1 (replacer (template variableMatch)) cypher in
        ret replacedString
      else ret cypher
  end.

Definition getCypher : M Err (Projection * Env) jsstring :=
  ProjectionClass.getCypher serializeColumn.
End Methods.
End ProjectionAlt.

(** ** The type predicate expression [IsType] *)

Module IsType.

(** The values of [BaseTypes]. *)
Inductive BaseType : Type :=
| ANY | BOOLEAN | DATE | DURATION | FLOAT | INTEGER | LOCAL_DATETIME
| LOCAL_TIME | MAP | NODE | NOTHING | NULL | PATH | POINT | PROPERTY_VALUE
| RELATIONSHIP | STRING | ZONED_DATETIME | ZONED_TIME.

Definition BaseTypes (b : BaseType) : jsstring :=
  match b with
  | ANY => js "ANY"
  | BOOLEAN => js "BOOLEAN"
  | DATE => js "DATE"
  | DURATION => js "DURATION"
  | FLOAT => js "FLOAT"
  | INTEGER => js "INTEGER"
  | LOCAL_DATETIME => js "LOCAL DATETIME"
  | LOCAL_TIME => js "LOCAL_TIME"
  | MAP => js "MAP"
  | NODE => js "NODE"
  | NOTHING => js "NOTHING"
  | NULL => js "NULL"
  | PATH => js "PATH"
  | POINT => js "POINT"
  | PROPERTY_VALUE => js "PROPERTY VALUE"
  | RELATIONSHIP => js "RELATIONSHIP"
  | STRING => js "STRING"
  | ZONED_DATETIME => js "ZONED DATETIME"
  | ZONED_TIME => js "ZONED TIME"
  end.

(** [ValueOf<typeof BaseTypes> | ListType] *)
Inductive Type_ : Type :=
| Base (b : BaseType)
| ListType (type : Type_).

(** [CypherTypes.list] *)
Definition list (type : Type_) : Type_ := ListType type.

Section Methods.
Context {Err Env Expr : Type}.
Variable compile : Expr → M Err Env jsstring.

(** [compileType] and [ListType.getCypher]; [env.compile(type)] is the call
  [type.getCypher(env)]. *)
Fixpoint compileType (type : Type_) : M Err Env jsstring :=
match type with
| ListType inner =>
    do typeStr <- compileType inner ;;
    ret (js "LIST<" ++ typeStr ++ js ">")
| Base b => ret (BaseTypes b)
end.

Record IsType : Type := mkIsType {
expr : Expr;
type : Datatypes.list Type_;
not : bool;
_notNull : bool;
}.

(** [new IsType(expr, type, not = false)] *)
Definition new (expr : Expr) (type : Datatypes.list Type_) (not : bool) : IsType :=
mkIsType expr type not false.

(** [isType] and [isNotType], after [asArray]. *)
Definition isType (expr : Expr) (type : Datatypes.list Type_) : IsType :=
new expr type false.

Definition isNotType (expr : Expr) (type : Datatypes.list Type_) : IsType :=
new expr type true.

Definition notNull (this : IsType) : IsType :=
mkIsType (expr this) (type this) (not this) true.

Definition getCypher : M Err (IsType * Env) jsstring :=
do e <- field expr ;;
do exprCypher <- with_env (compile e) ;;
do n <- field not ;;
let isStr := if (n : bool) then js "IS NOT" else js "IS" in
do nn <- field _notNull ;;
let notNullStr := if (nn : bool) then js " NOT NULL" else js "" in
do types <- field type ;;
do typesStr <- with_env (mapM (λ type,
                   do typeStr <- compileType type ;;
                   ret (typeStr ++ notNullStr)) types) ;;
ret (exprCypher ++ js " " ++ isStr ++ js " :: " ++ join (js " | ") typesStr).
End Methods.
End IsType.

(** ** The naming environment, the pattern compiler and the build entry point

    The sources above receive the environment and the other nodes through
    their interface only; this part follows the specification of the
    compilation engine. *)

Module Engine.

Inductive Error : Type :=
| NameCollisionError
| AmbiguousParameterBindingError
| IncompletePatternError
| InvalidQuantifierError.

(** The two classes of identifiers. *)
Inductive IdentifierClass : Type :=
| VariableClass
| ParameterClass.

(** Modelled from the spec: the fixed token per class of the Naming
    Allocator ([var0], [var1], [param0], ...). *)
Definition classTag (k : IdentifierClass) : jsstring :=
  match k with
  | VariableClass => js "var"
  | ParameterClass => js "param"
  end.

(** The decimal digits of a counter. *)
Definition decimal (n : nat) : jsstring := js (pretty n).

(** Modelled from the spec: the Environment of section 3: the name given to
    each Variable identity, the name and value of each Parameter identity,
    the prefix, and one counter per class. *)
Record Environment (value : Type) : Type := mkEnvironment {
  prefix : jsstring;
  variables : gmap nat jsstring;
  parameters : gmap nat (jsstring * value);
  variableCounter : nat;
  parameterCounter : nat;
}.
Arguments mkEnvironment {value} _ _ _ _ _.
Arguments prefix {value} _.
Arguments variables {value} _.
Arguments parameters {value} _.
Arguments variableCounter {value} _.
Arguments parameterCounter {value} _.

(** Direction and length of a relationship element. *)
Inductive Direction : Type := Left | Right | Undirected.

Inductive Length : Type :=
| Exact (n : nat)
| Bounds (min max : option nat)
| AnyLength.

(** A property matcher maps property names to parameters or literals. *)
Inductive PropertyValue : Type :=
| PropParam (p : nat)
| PropLiteral (text : jsstring).

Definition Properties : Type := list (jsstring * PropertyValue).

Record NodeElement : Type := mkNodeElement {
  nodeVariable : nat;
  nodeLabels : list jsstring;
  nodeProperties : option Properties;
  nodeWithoutVariable : bool;
  nodeWithoutLabels : bool;
}.

Record RelationshipElement : Type := mkRelationshipElement {
  relVariable : nat;
  relType : option jsstring;
  relDirection : Direction;
  relLength : option Length;
  relProperties : option Properties;
  relWithoutVariable : bool;
  relWithoutType : bool;
}.

(** Modelled from the spec: a Pattern is a chain that begins with a node
    element; a pattern whose last [related] has no [to] yet ends on a
    dangling relationship element. *)
Record Pattern : Type := mkPattern {
  first : NodeElement;
  steps : list (RelationshipElement * NodeElement);
  dangling : option RelationshipElement;
}.

Definition newPattern (n : NodeElement) : Pattern := mkPattern n [] None.

Definition related (r : RelationshipElement) (p : Pattern) : Pattern :=
  mkPattern (first p) (steps p) (Some r).

Definition to (n : NodeElement) (p : Pattern) : Pattern :=
  match dangling p with
  | Some r => mkPattern (first p) (steps p ++ [(r, n)]) None
  | None => p
  end.

(** Modelled from the spec: the AST Node Protocol of section 4.3: leaves
    query the environment, composite nodes render their children in order
    and assemble the results with the syntax of the construct. *)
Inductive Node : Type :=
| VariableRef (v : nat)
| ParameterRef (p : nat)
| Literal (text : jsstring)
| PatternNode (p : Pattern)
| Composite (assemble : list jsstring → jsstring) (children : list Node).

Section Engine.
Context {value : Type} `{EqDecision value}.

(** The identity objects are created by the caller before the build and are
    read-only during it: [explicit i] is the name the caller gave to the
    object [i], if any, and [payload i] the value of the parameter [i]. *)
Variable explicit : nat → option jsstring.
Variable payload : nat → value.

Definition fresh (pfx : jsstring) : Environment value :=
  mkEnvironment pfx ∅ ∅ 0 0.

Definition counter (k : IdentifierClass) (env : Environment value) : nat :=
  match k with
  | VariableClass => variableCounter env
  | ParameterClass => parameterCounter env
  end.

Definition bump (k : IdentifierClass) (env : Environment value) : Environment value :=
  match k with
  | VariableClass =>
      mkEnvironment (prefix env) (variables env) (parameters env)
        (S (variableCounter env)) (parameterCounter env)
  | ParameterClass =>
      mkEnvironment (prefix env) (variables env) (parameters env)
        (variableCounter env) (S (parameterCounter env))
  end.

(** The identity [i] has been given the name [name]. *)
Definition named (env : Environment value) (i : nat) (name : jsstring) : Prop :=
  variables env !! i = Some name ∨ ∃ val, parameters env !! i = Some (name, val).

(** A different identity already has this name. *)
Definition collides (env : Environment value) (i : nat) (name : jsstring) : bool :=
  bool_decide (map_Exists (λ j n, j ≠ i ∧ n = name) (variables env))
  || bool_decide (map_Exists (λ j e, j ≠ i ∧ e.1 = name) (parameters env)).

(** Modelled from the spec: the Naming Allocator of section 4.1.  The name
    of an explicitly named identity is the name of the caller; the name of
    an anonymous one is the prefix, the class tag and the counter.  No name
    is handed out that a different identity holds: the allocator fails with
    [NameCollisionError] instead. *)
Definition allocate (k : IdentifierClass) (i : nat) : M Error (Environment value) jsstring :=
  λ env,
    match explicit i with
    | Some name =>
        if collides env i name then Throw NameCollisionError else Ok name env
    | None =>
        let name := prefix env ++ classTag k ++ decimal (counter k env) in
        if collides env i name then Throw NameCollisionError
        else Ok name (bump k env)
    end.

(** Modelled from the spec: [nameOf] of section 4.2. *)
Definition nameOf (v : nat) : M Error (Environment value) jsstring :=
  λ env,
    match variables env !! v with
    | Some name => Ok name env
    | None =>
        match allocate VariableClass v env with
        | Ok name env' =>
            Ok name (mkEnvironment (prefix env') (<[v := name]> (variables env'))
                       (parameters env') (variableCounter env') (parameterCounter env'))
        | Throw e => Throw e
        end
    end.

(** Modelled from the spec: [recordParameter] of section 4.2. *)
Definition recordParameter (p : nat) (val : value) : M Error (Environment value) jsstring :=
  λ env,
    match parameters env !! p with
    | Some (name, val') =>
        if decide (val' = val) then Ok name env
        else Throw AmbiguousParameterBindingError
    | None =>
        match allocate ParameterClass p env with
        | Ok name env' =>
            Ok name (mkEnvironment (prefix env') (variables env')
                       (<[p := (name, val)]> (parameters env'))
                       (variableCounter env') (parameterCounter env'))
        | Throw e => Throw e
        end
    end.

(** Modelled from the spec: [finalize] of section 4.2: the recorded
    parameters by name, then the extra parameters of the caller, none of
    which may reuse a name. *)
Fixpoint addExtra (extra : list (jsstring * value)) (m : gmap jsstring value)
    : Error + gmap jsstring value :=
  match extra with
  | [] => inr m
  | (name, val) :: extra' =>
      match m !! name with
      | Some _ => inl NameCollisionError
      | None => addExtra extra' (<[name := val]> m)
      end
  end.

Definition finalize (extra : list (jsstring * value)) (env : Environment value)
    : Error + gmap jsstring value :=
  addExtra extra (list_to_map ((λ e, e.2) <$> map_to_list (parameters env))).

(** *** The pattern compiler (section 4.4) *)

Definition renderLength (l : option Length) : jsstring :=
  match l with
  | None => []
  | Some (Exact n) => js "*" ++ decimal n
  | Some (Bounds min max) =>
      js "*" ++ from_option decimal [] min ++ js ".." ++ from_option decimal [] max
  | Some AnyLength => js "*"
  end.

Definition renderProperty (kv : jsstring * PropertyValue)
    : M Error (Environment value) jsstring :=
  match kv.2 with
  | PropParam p =>
      do name <- recordParameter p (payload p) ;;
      ret (kv.1 ++ js ": $" ++ name)
  | PropLiteral text => ret (kv.1 ++ js ": " ++ text)
  end.

Definition renderProperties (ps : option Properties)
    : M Error (Environment value) jsstring :=
  match ps with
  | None => ret []
  | Some kvs =>
      do strs <- mapM renderProperty kvs ;;
      ret (js " {" ++ join (js ", ") strs ++ js "}")
  end.

(** Labels and properties are rendered at the first occurrence of a variable
    in the pattern only. *)
Definition renderNodeElement (seen : gset nat) (n : NodeElement)
    : M Error (Environment value) jsstring :=
  do name <- (if nodeWithoutVariable n then ret [] else nameOf (nodeVariable n)) ;;
  let bare := bool_decide (nodeVariable n ∈ seen) in
  let labels :=
    if bare || nodeWithoutLabels n then []
    else concat ((λ l, js ":" ++ l) <$> nodeLabels n) in
  do props <- (if bare then ret [] else renderProperties (nodeProperties n)) ;;
  ret (js "(" ++ name ++ labels ++ props ++ js ")").

Definition renderRelationshipElement (seen : gset nat) (r : RelationshipElement)
    : M Error (Environment value) jsstring :=
  do name <- (if relWithoutVariable r then ret [] else nameOf (relVariable r)) ;;
  let bare := bool_decide (relVariable r ∈ seen) in
  let type :=
    if bare || relWithoutType r then []
    else from_option (λ t, js ":" ++ t) [] (relType r) in
  let len := if bare then [] else renderLength (relLength r) in
  do props <- (if bare then ret [] else renderProperties (relProperties r)) ;;
  let inner := js "[" ++ name ++ type ++ len ++ props ++ js "]" in
  ret (match relDirection r with
       | Left => js "<-" ++ inner ++ js "-"
       | Right => js "-" ++ inner ++ js "->"
       | Undirected => js "-" ++ inner ++ js "-"
       end).

Fixpoint renderSteps (seen : gset nat) (l : list (RelationshipElement * NodeElement))
    : M Error (Environment value) jsstring :=
  match l with
  | [] => ret []
  | (r, n) :: l' =>
      do rs <- renderRelationshipElement seen r ;;
      do ns <- renderNodeElement ({[relVariable r]} ∪ seen) n ;;
      do rest <- renderSteps ({[nodeVariable n]} ∪ ({[relVariable r]} ∪ seen)) l' ;;
      ret (rs ++ ns ++ rest)
  end.

Definition renderPattern (p : Pattern) : M Error (Environment value) jsstring :=
  match dangling p with
  | Some _ => throw IncompletePatternError
  | None =>
      do ns <- renderNodeElement ∅ (first p) ;;
      do rest <- renderSteps {[nodeVariable (first p)]} (steps p) ;;
      ret (ns ++ rest)
  end.

(** *** Rendering a tree and the build entry point *)

Fixpoint render (t : Node) : M Error (Environment value) jsstring :=
  match t with
  | VariableRef v => nameOf v
  | ParameterRef p =>
      do name <- recordParameter p (payload p) ;;
      ret (js "$" ++ name)
  | Literal text => ret text
  | PatternNode p => renderPattern p
  | Composite assemble children =>
      do strs <- mapM render children ;;
      ret (assemble strs)
  end.

Record BuildResult : Type := mkBuildResult {
  text : jsstring;
  params : gmap jsstring value;
}.

(** Modelled from the spec: the Build Entry Point of section 4.5. *)
Definition build (root : Node) (pfx : jsstring) (extra : list (jsstring * value))
    : Error + BuildResult :=
  match render root (fresh pfx) with
  | Ok txt env =>
      match finalize extra env with
      | inr ps => inr (mkBuildResult txt ps)
      | inl e => inl e
      end
  | Throw e => inl e
  end.

End Engine.
End Engine.

(** * Vocabulary of the properties *)

(** ** Matches of the patterns of [Projection.ts] *)

(** The longest prefix of [s] inside a class, and what follows it. *)
Fixpoint run (p : code_unit → bool) (s : jsstring) : jsstring :=
  match s with
  | c :: s' => if p c then c :: run p s' else []
  | [] => []
  end.

Fixpoint skip (p : code_unit → bool) (s : jsstring) : jsstring :=
  match s with
  | c :: s' => if p c then skip p s' else s
  | [] => []
  end.

Definition accessRe (f : jsstring) : regex :=
  Group 1 (Alt (Seq (Lit (f ++ js ":")) (Seq (Many is_space) (Seq (Lit (js "this"))
                 (Seq (Group 2 (Many1 is_digit)) (Lit (js "." ++ f))))))
               (Lit (js "." ++ f))).

(** The text [f:], white space, [this], digits, [.f] at the start of [s]:
    the white space, the digits and what follows the match. *)
Definition shape_at (f s : jsstring) : option (jsstring * jsstring * jsstring) :=
  s1 ← strip_prefix (f ++ js ":") s;
  s3 ← strip_prefix (js "this") (skip is_space s1);
  rest ← strip_prefix (js "." ++ f) (skip is_digit s3);
  if run is_digit s3 is [] then None
  else Some (run is_space s1, run is_digit s3, rest).

Definition shape_text (f ws ds : jsstring) : jsstring :=
  (f ++ js ":") ++ ws ++ js "this" ++ ds ++ js "." ++ f.

(** [f: f(arg)] *)
Definition call (f arg : jsstring) : jsstring :=
  f ++ js ": " ++ f ++ js "(" ++ arg ++ js ")".

Definition accessReplacer (f : jsstring) (m : captures) : jsstring :=
  if truthy (group m 1) then f ++ js ": " ++ f ++ js "(this" ++ or_empty (group m 2) ++ js ")"
  else or_empty (group m 0).

(** One pass of the serializer over a rendered text. *)
Definition pass (f : jsstring) (s : jsstring) : jsstring :=
  replace (accessRe f) 2 (accessReplacer f) s.

(** ** What a rewriting of every occurrence is

    A rendered text is cut into pieces: units that are copied, and stretches
    [src] that are replaced by a call [f: f(arg)]. *)

Inductive piece : Type :=
| Kept (c : code_unit)
| Call (f src arg : jsstring).

Definition source (p : piece) : jsstring :=
  match p with
  | Kept c => [c]
  | Call _ src _ => src
  end.

Definition target (p : piece) : jsstring :=
  match p with
  | Kept c => [c]
  | Call f _ arg => call f arg
  end.

Definition sources (ps : list piece) : jsstring := concat (source <$> ps).
Definition targets (ps : list piece) : jsstring := concat (target <$> ps).

(** The two property names the serializers look for. *)
Definition accessor (f : jsstring) : Prop := f = js "id" ∨ f = js "labels".

(** Every occurrence of [.id] and of [.labels] in the text ends the source
    of a call piece to [id], respectively [labels]. *)
Definition covers (ps : list piece) (text : jsstring) : Prop :=
  ∀ f pre post, accessor f → text = pre ++ (js "." ++ f) ++ post →
    ∃ ps1 src arg ps2,
      ps = ps1 ++ Call f src arg :: ps2 ∧ sources ps1 ++ src = pre ++ js "." ++ f.

(** [out] is [text] with every occurrence of [.id] and [.labels] rewritten
    into a call, the pieces being of the kind [ok]. *)
Definition rewrites_all (ok : piece → Prop) (text out : jsstring) : Prop :=
  ∃ ps, sources ps = text ∧ targets ps = out ∧ Forall ok ps ∧ covers ps text.

(** The source of a call piece ends with [.f], the only dot in it. *)
Definition call_shape (p : piece) : Prop :=
  match p with
  | Kept _ => True
  | Call f src _ => accessor f ∧ ∃ body, src = body ++ js "." ++ f ∧ 46%N ∉ body
  end.

(** No occurrence begins at a unit that is copied. *)
Fixpoint scanned (ps : list piece) : Prop :=
  match ps with
  | [] => True
  | Kept c :: ps' =>
      (∀ f, accessor f → ¬ (js "." ++ f) `prefix_of` (c :: sources ps')) ∧ scanned ps'
  | Call _ _ _ :: ps' => scanned ps'
  end.

(** The pieces the serializer of [Projection.ts] makes: a bare [.f] becomes
    a call on the fixed name [this]; [f:], white space, [this], digits, [.f]
    becomes a call on [this] with these digits. *)
Definition fork_piece (p : piece) : Prop :=
  match p with
  | Kept _ => True
  | Call f src arg =>
      accessor f ∧
      ((src = js "." ++ f ∧ arg = js "this") ∨
       ∃ ws ds, Forall (λ c, is_space c = true) ws ∧
                Forall (λ c, is_digit c = true) ds ∧ ds ≠ [] ∧
                src = shape_text f ws ds ∧ arg = js "this" ++ ds)
  end.

(** The single scan from left to right that the two passes of
    [Projection.ts] amount to.  At the scanning position: where [id:], white
    space, [this], digits and [.id] begin, the whole stretch becomes a call
    on [this] with these digits; else where [.id] begins, it becomes a call
    on [this]; else the same two rules for [labels]; else one unit is copied.
    The scan goes on after the stretch it has consumed. *)
Fixpoint scan_from (fuel : nat) (s : jsstring) : list piece :=
  match fuel, s with
  | S fuel', c :: s' =>
      match shape_at (js "id") s with
      | Some (ws, ds, rest) =>
          Call (js "id") (shape_text (js "id") ws ds) (js "this" ++ ds)
            :: scan_from fuel' rest
      | None =>
      match strip_prefix (js ".id") s with
      | Some rest => Call (js "id") (js ".id") (js "this") :: scan_from fuel' rest
      | None =>
      match shape_at (js "labels") s with
      | Some (ws, ds, rest) =>
          Call (js "labels") (shape_text (js "labels") ws ds) (js "this" ++ ds)
            :: scan_from fuel' rest
      | None =>
      match strip_prefix (js ".labels") s with
      | Some rest =>
          Call (js "labels") (js ".labels") (js "this") :: scan_from fuel' rest
      | None => Kept c :: scan_from fuel' s'
      end end end end
  | _, _ => []
  end.

Definition fork_scan (s : jsstring) : list piece := scan_from (length s) s.

Definition alt_pass (varName s : jsstring) : jsstring :=
  replace ProjectionAlt.regexPattern 1 (ProjectionAlt.replacer varName) s.

(** Every call piece replaces exactly [.f] and names [varName]. *)
Definition alt_piece (varName : jsstring) (p : piece) : Prop :=
  match p with
  | Kept _ => True
  | Call f src arg => accessor f ∧ src = js "." ++ f ∧ arg = varName
  end.

(** The scan of the second serializer: where [.id] or [.labels] begins at
    the scanning position it becomes a call on [varName], else one unit is
    copied. *)
Fixpoint alt_scan_from (fuel : nat) (varName s : jsstring) : list piece :=
  match fuel, s with
  | S fuel', c :: s' =>
      match strip_prefix (js ".id") s with
      | Some rest => Call (js "id") (js ".id") varName :: alt_scan_from fuel' varName rest
      | None =>
      match strip_prefix (js ".labels") s with
      | Some rest =>
          Call (js "labels") (js ".labels") varName :: alt_scan_from fuel' varName rest
      | None => Kept c :: alt_scan_from fuel' varName s'
      end end
  | _, _ => []
  end.

Definition alt_scan (varName s : jsstring) : list piece :=
  alt_scan_from (length s) varName s.

(** An occurrence of [.f] that ends a text of the shape [f: thisN.f]. *)
Definition in_shape (f pre : jsstring) : Prop :=
  ∃ pre0 ws ds,
    Forall (λ c, is_space c = true) ws ∧ Forall (λ c, is_digit c = true) ds ∧
    ds ≠ [] ∧ pre ++ js "." ++ f = pre0 ++ shape_text f ws ds.

(** ** Columns and projections *)

Section ColumnVocabulary.
Import ProjectionClass.
Context {Err Env Expr : Type}.
Variable compile : Expr → M Err Env jsstring.

Definition column_expr (col : ProjectionColumn (Expr:=Expr)) : Expr :=
  match col with
  | Plain e => e
  | Aliased e _ => e
  end.

(** The optional [ AS alias] suffix of a column. *)
Definition alias_suffix (col : ProjectionColumn (Expr:=Expr)) : M Err Env jsstring :=
  match col with
  | Plain _ => ret []
  | Aliased _ alias => do a <- aliasStr compile alias ;; ret (js " AS " ++ a)
  end.

(** The variable name the second serializer extracts from a rendered text,
    and whether it rewrites the text at all. *)
Definition alt_name (col : ProjectionColumn (Expr:=Expr)) (text : jsstring) : jsstring :=
  match col with
  | Plain _ => ProjectionAlt.template (ProjectionAlt.variableMatch text)
  | Aliased _ _ => ProjectionAlt.template (split 32%N text !! 0)
  end.

Definition alt_enabled (col : ProjectionColumn (Expr:=Expr)) (text : jsstring) : bool :=
  match col with
  | Plain _ => truthy (ProjectionAlt.variableMatch text)
  | Aliased _ _ => true
  end.

(** The ordinary columns among the arguments, in their order. *)
Definition plain_columns (cs : list (ColumnArg (Expr:=Expr))) : list ProjectionColumn :=
  omap (λ v, match v with Star => None | Col c => Some c end) cs.

Definition has_star (cs : list (ColumnArg (Expr:=Expr))) : bool :=
  existsb (λ v, match v with Star => true | Col _ => false end) cs.

(** A projection built by the constructor and any number of [addColumns]. *)
Definition built (cs0 : list ColumnArg) (batches : list (list ColumnArg))
    : Projection (Expr:=Expr) :=
  foldl (λ this cs, addColumns cs this) (new cs0) batches.

End ColumnVocabulary.

(** The text of a type, as the Cypher manual writes it. *)
Fixpoint typeText (t : IsType.Type_) : jsstring :=
  match t with
  | IsType.Base b => IsType.BaseTypes b
  | IsType.ListType inner => js "LIST<" ++ typeText inner ++ js ">"
  end.

(** ** Computations that keep a property of the state *)

Section StateVocabulary.
Context {Err S : Type}.

(** [c] keeps the property [P] of the state whenever it returns. *)
Definition preserves {A} (P : S → Prop) (c : M Err S A) : Prop :=
  ∀ s a s', P s → c s = Ok a s' → P s'.

End StateVocabulary.

(** ** The invariant of an environment *)

Section EngineVocabulary.
Import Engine.
Context {value : Type} `{EqDecision value}.
Variable explicit : nat → option jsstring.

(** Induction on a tree with its children. *)
Fixpoint Node_nested_ind (P : Node → Prop)
    (HV : ∀ v, P (VariableRef v)) (HP : ∀ p, P (ParameterRef p))
    (HL : ∀ text, P (Literal text)) (HPat : ∀ p, P (PatternNode p))
    (HC : ∀ assemble children, Forall P children → P (Composite assemble children))
    (t : Node) : P t :=
  match t with
  | VariableRef v => HV v
  | ParameterRef p => HP p
  | Literal text => HL text
  | PatternNode p => HPat p
  | Composite assemble children =>
      HC assemble children
        ((fix go (l : list Node) : Forall P l :=
            match l with
            | [] => Forall_nil_2 P
            | t' :: l' =>
                Forall_cons_2 P t' l' (Node_nested_ind P HV HP HL HPat HC t') (go l')
            end) children)
  end.

(** Only errors of the kind [Q] come out of [c]. *)
Definition throws_only {A} (Q : Error → Prop) (c : M Error (Environment value) A) : Prop :=
  ∀ env e, c env = Throw e → Q e.

(** Names are held by one identity only, and follow the naming rule: an
    explicitly named identity has the name of the caller, a generated name
    begins with the prefix. *)
Record wf (pfx : jsstring) (env : Environment value) : Prop := mk_wf {
  wf_prefix : prefix env = pfx;
  wf_unique : ∀ i j n, named env i n → named env j n → i = j;
  wf_rule : ∀ i n, named env i n →
            match explicit i with Some e => n = e | None => pfx `prefix_of` n end;
}.

End EngineVocabulary.

(** ** The text of a tree under the names of an environment

    The layout of a tree writes every identity object as the name the
    environment [env] holds for it, and nothing else depends on [env]: it is
    the text of the tree once the names are known.  It is undefined where a
    name is missing and on a dangling pattern. *)

Section LayoutVocabulary.
Import Engine.
Context {value : Type}.
Variable env : Environment value.

Definition variableName (v : nat) : option jsstring := variables env !! v.

Definition parameterName (p : nat) : option jsstring := fst <$> parameters env !! p.

Definition layoutList {A} (f : A → option jsstring) : list A → option (list jsstring) :=
  fix go l :=
    match l with
    | [] => Some []
    | x :: l' => y ← f x; ys ← go l'; Some (y :: ys)
    end.

Definition layoutProperty (kv : jsstring * PropertyValue) : option jsstring :=
  match kv.2 with
  | PropParam p => name ← parameterName p; Some (kv.1 ++ js ": $" ++ name)
  | PropLiteral text => Some (kv.1 ++ js ": " ++ text)
  end.

Definition layoutProperties (ps : option Properties) : option jsstring :=
  match ps with
  | None => Some []
  | Some kvs =>
      strs ← layoutList layoutProperty kvs;
      Some (js " {" ++ join (js ", ") strs ++ js "}")
  end.

Definition layoutNodeElement (seen : gset nat) (n : NodeElement) : option jsstring :=
  name ← (if nodeWithoutVariable n then Some [] else variableName (nodeVariable n));
  let bare := bool_decide (nodeVariable n ∈ seen) in
  let labels :=
    if bare || nodeWithoutLabels n then []
    else concat ((λ l, js ":" ++ l) <$> nodeLabels n) in
  props ← (if bare then Some [] else layoutProperties (nodeProperties n));
  Some (js "(" ++ name ++ labels ++ props ++ js ")").

Definition layoutRelationshipElement (seen : gset nat) (r : RelationshipElement)
    : option jsstring :=
  name ← (if relWithoutVariable r then Some [] else variableName (relVariable r));
  let bare := bool_decide (relVariable r ∈ seen) in
  let type :=
    if bare || relWithoutType r then []
    else from_option (λ t, js ":" ++ t) [] (relType r) in
  let len := if bare then [] else renderLength (relLength r) in
  props ← (if bare then Some [] else layoutProperties (relProperties r));
  let inner := js "[" ++ name ++ type ++ len ++ props ++ js "]" in
  Some (match relDirection r with
        | Left => js "<-" ++ inner ++ js "-"
        | Right => js "-" ++ inner ++ js "->"
        | Undirected => js "-" ++ inner ++ js "-"
        end).

Fixpoint layoutSteps (seen : gset nat) (l : list (RelationshipElement * NodeElement))
    : option jsstring :=
  match l with
  | [] => Some []
  | (r, n) :: l' =>
      rs ← layoutRelationshipElement seen r;
      ns ← layoutNodeElement ({[relVariable r]} ∪ seen) n;
      rest ← layoutSteps ({[nodeVariable n]} ∪ ({[relVariable r]} ∪ seen)) l';
      Some (rs ++ ns ++ rest)
  end.

Definition layoutPattern (p : Pattern) : option jsstring :=
  match dangling p with
  | Some _ => None
  | None =>
      ns ← layoutNodeElement ∅ (first p);
      rest ← layoutSteps {[nodeVariable (first p)]} (steps p);
      Some (ns ++ rest)
  end.

(** Every occurrence of the Variable [v] in the tree is written
    [variableName v], every occurrence of the Parameter [p] is written [$]
    and [parameterName p]. *)
Fixpoint layout (t : Node) : option jsstring :=
  match t with
  | VariableRef v => variableName v
  | ParameterRef p => name ← parameterName p; Some (js "$" ++ name)
  | Literal text => Some text
  | PatternNode p => layoutPattern p
  | Composite assemble children =>
      strs ← layoutList layout children;
      Some (assemble strs)
  end.

End LayoutVocabulary.

Section LaysVocabulary.
Import Engine.
Context {value : Type}.

(** [env2] holds every name that [env1] holds. *)
Definition extends (env1 env2 : Environment value) : Prop :=
  variables env1 ⊆ variables env2 ∧ parameters env1 ⊆ parameters env2.

(** What [c] returns is what [L] lays out under the names of the environment
    it leaves, and of every environment that extends it. *)
Definition lays {A} (c : M Error (Environment value) A)
    (L : Environment value → option A) : Prop :=
  ∀ env a env1, c env = Ok a env1 →
    extends env env1 ∧ ∀ env2, extends env1 env2 → L env2 = Some a.

End LaysVocabulary.

(** ** Trees of anonymous identities

    A tree is complete when none of its patterns ends on a dangling
    relationship element. *)

Fixpoint complete (t : Engine.Node) : bool :=
  match t with
  | Engine.PatternNode p =>
      match Engine.dangling p with Some _ => false | None => true end
  | Engine.Composite _ children => forallb complete children
  | _ => true
  end.

Section AnonymousVocabulary.
Import Engine.
Context {value : Type}.
Variable payload : nat → value.

(** Every name of the environment was generated with the prefix [pfx] from a
    counter value that is used up, and every recorded value is the value of
    its Parameter. *)
Record generated (pfx : jsstring) (env : Environment value) : Prop := mk_generated {
  gen_prefix : prefix env = pfx;
  gen_variables : ∀ v n, variables env !! v = Some n →
    ∃ k, k < variableCounter env ∧ n = pfx ++ classTag VariableClass ++ decimal k;
  gen_parameters : ∀ p n val, parameters env !! p = Some (n, val) →
    val = payload p ∧
    ∃ k, k < parameterCounter env ∧ n = pfx ++ classTag ParameterClass ++ decimal k;
}.

(** From a state with the property [P], [c] returns, in a state with [P]. *)
Definition succeeds {A} (P : Environment value → Prop)
    (c : M Error (Environment value) A) : Prop :=
  ∀ env, P env → ∃ a env', c env = Ok a env' ∧ P env'.

End AnonymousVocabulary.

(** ** Equivalent trees built from other identity objects *)

Section Rename.
Import Engine.
Variable σ : nat → nat.

Definition renameProperties (ps : Properties) : Properties :=
  (λ kv, (kv.1, match kv.2 with
                | PropParam p => PropParam (σ p)
                | PropLiteral text => PropLiteral text
                end)) <$> ps.

Definition renameNodeElement (n : NodeElement) : NodeElement :=
  mkNodeElement (σ (nodeVariable n)) (nodeLabels n)
    (renameProperties <$> nodeProperties n)
    (nodeWithoutVariable n) (nodeWithoutLabels n).

Definition renameRelationshipElement (r : RelationshipElement) : RelationshipElement :=
  mkRelationshipElement (σ (relVariable r)) (relType r) (relDirection r) (relLength r)
    (renameProperties <$> relProperties r)
    (relWithoutVariable r) (relWithoutType r).

Definition renamePattern (p : Pattern) : Pattern :=
  mkPattern (renameNodeElement (first p))
    ((λ rn, (renameRelationshipElement rn.1, renameNodeElement rn.2)) <$> steps p)
    (renameRelationshipElement <$> dangling p).

(** The same tree, each identity object [i] replaced by the object [σ i]. *)
Fixpoint rename (t : Node) : Node :=
  match t with
  | VariableRef v => VariableRef (σ v)
  | ParameterRef p => ParameterRef (σ p)
  | Literal text => Literal text
  | PatternNode p => PatternNode (renamePattern p)
  | Composite assemble children => Composite assemble (rename <$> children)
  end.

Definition renameEnvironment {value} (env : Environment value) : Environment value :=
  mkEnvironment (prefix env) (kmap σ (variables env)) (kmap σ (parameters env))
    (variableCounter env) (parameterCounter env).

End Rename.

Section SimulationVocabulary.
Import Engine.
Context {value : Type}.
Variable σ : nat → nat.

Definition lift {A} (r : result Error (Environment value) A)
    : result Error (Environment value) A :=
  match r with
  | Ok a env => Ok a (renameEnvironment σ env)
  | Throw e => Throw e
  end.

(** [c2] does on the renamed environment what [c1] does on the original. *)
Definition sim {A} (c1 c2 : M Error (Environment value) A) : Prop :=
  ∀ env, c2 (renameEnvironment σ env) = lift (c1 env).

End SimulationVocabulary.

(** ** Occurrences *)

(** [w] occurs in [text]. *)
Definition occurs (w text : jsstring) : Prop :=
  ∃ pre post, text = pre ++ w ++ post.

(** * Properties *)

(** Source literals are evaluated to their code units before a proof
    computes with them. *)
Ltac js_eval :=
  repeat match goal with
         | |- context [js ?s] =>
             let v := eval vm_compute in (js s) in change (js s) with v
         end.

Ltac js_eval_in H :=
  repeat match type of H with
         | context [js ?s] =>
             let v := eval vm_compute in (js s) in change (js s) with v in H
         end.

(** ** The matcher and [replace] *)

Section MatcherFacts.

Lemma strip_prefix_Some p s r : strip_prefix p s = Some r ↔ s = p ++ r.
Proof.
  revert s; induction p as [|a p IH]; intros [|b s]; simpl; try (split; congruence).
  destruct (N.eqb_spec a b) as [->|Hne].
  - rewrite IH. split; congruence.
  - split; [done | congruence].
Qed.

Lemma strip_prefix_app p r : strip_prefix p (p ++ r) = Some r.
Proof. by apply strip_prefix_Some. Qed.

Lemma strip_prefix_None_cons a p b s : a ≠ b → strip_prefix (a :: p) (b :: s) = None.
Proof. intros Hne; simpl. by destruct (N.eqb_spec a b). Qed.

(** The continuation only ever sees a suffix of the input, and capture
    arrays keep their length. *)
Lemma matchRe_inv {A} r : ∀ s caps (k : jsstring → captures → option A) a,
  matchRe r s caps k = Some a →
  ∃ s' caps', s' `suffix_of` s ∧ length caps' = length caps ∧ k s' caps' = Some a.
Proof.
  induction r as [l|p|p|r1 IH1 r2 IH2|r1 IH1 r2 IH2|i r IH]; intros s caps k a; simpl.
  - destruct (strip_prefix l s) as [s'|] eqn:E; [|done].
    apply strip_prefix_Some in E as ->. intros Hk.
    exists s', caps. split; [by apply suffix_app_r|done].
  - destruct s as [|c s]; [done|]. destruct (p c); [|done]. intros Hk.
    exists s, caps. split; [by apply suffix_cons_r|done].
  - revert a. induction s as [|c s IHs]; intros a.
    + intros Hk. by exists [], caps.
    + destruct (p c).
      * match goal with |- context [match ?x with _ => _ end] =>
          destruct x as [a'|] eqn:E end.
        -- intros [= <-]. destruct (IHs a' eq_refl) as (s' & caps' & Hs & Hl & Hk).
           exists s', caps'. split; [by apply suffix_cons_r|done].
        -- intros Hk. by exists (c :: s), caps.
      * intros Hk. by exists (c :: s), caps.
  - intros H. apply IH1 in H as (s1 & caps1 & Hs1 & Hl1 & H).
    apply IH2 in H as (s2 & caps2 & Hs2 & Hl2 & H).
    exists s2, caps2. split; [by etrans|]. split; [congruence|done].
  - destruct (matchRe r1 s caps k) as [a'|] eqn:E.
    + intros [= <-]. by apply IH1.
    + by apply IH2.
  - intros H. apply IH in H as (s1 & caps1 & Hs1 & Hl1 & H).
    exists s1, (<[i:=Some (take (length s - length s1) s)]> caps1).
    split; [done|]. split; [|done]. by rewrite length_insert.
Qed.

(** A match is a prefix of the input and is reported at index 0. *)
Lemma exec_inv r n s m :
  exec r n s = Some m → ∃ w s', s = w ++ s' ∧ group m 0 = Some w.
Proof.
  unfold exec. intros H. apply matchRe_inv in H as (s' & caps' & [w ->] & Hl & H).
  injection H as <-. exists w, s'. split; [done|].
  rewrite length_replicate in Hl. destruct caps' as [|? caps']; [done|].
  unfold group; simpl. by rewrite length_app, Nat.add_sub, take_app_length.
Qed.

Lemma replace_from_S fuel r n fn s :
  replace_from (S fuel) r n fn s =
  match exec r n s with
  | Some m =>
      fn m ++
      match or_empty (group m 0), s with
      | (_ :: _) as w, _ => replace_from fuel r n fn (drop (length w) s)
      | [], c :: s' => c :: replace_from fuel r n fn s'
      | [], [] => []
      end
  | None =>
      match s with
      | c :: s' => c :: replace_from fuel r n fn s'
      | [] => []
      end
  end.
Proof. done. Qed.

Lemma replace_from_fuel r n fn : ∀ fuel1 fuel2 s,
  length s < fuel1 → length s < fuel2 →
  replace_from fuel1 r n fn s = replace_from fuel2 r n fn s.
Proof.
  induction fuel1 as [|fuel1 IH]; intros [|fuel2] s H1 H2; [lia..|].
  rewrite !replace_from_S.
  destruct (exec r n s) as [m|] eqn:E.
  - apply exec_inv in E as (w & s' & -> & ->). cbn [or_empty].
    destruct w as [|c w].
    + destruct s' as [|c s']; [done|]. cbn [app length] in *.
      do 2 f_equal. apply IH; lia.
    + f_equal. rewrite length_app in *. cbn [length] in *.
      apply IH; rewrite length_drop, length_app; cbn [length]; lia.
  - destruct s as [|c s]; [done|]. cbn [length] in *. f_equal. apply IH; lia.
Qed.

(** The defining equation of [replace]. *)
Lemma replace_unfold r n fn s :
  replace r n fn s =
  match exec r n s with
  | Some m =>
      fn m ++
      match or_empty (group m 0), s with
      | (_ :: _) as w, _ => replace r n fn (drop (length w) s)
      | [], c :: s' => c :: replace r n fn s'
      | [], [] => []
      end
  | None =>
      match s with
      | c :: s' => c :: replace r n fn s'
      | [] => []
      end
  end.
Proof.
  unfold replace at 1. rewrite replace_from_S.
  destruct (exec r n s) as [m|] eqn:E.
  - apply exec_inv in E as (w & s' & -> & ->). cbn [or_empty].
    destruct w as [|c w].
    + by destruct s' as [|c s'].
    + f_equal. apply replace_from_fuel;
        rewrite ?length_drop, ?length_app; cbn [length]; lia.
  - by destruct s as [|c s].
Qed.

(** No match anywhere: the text is returned as it is. *)
Lemma replace_None_cons r n fn c s :
  exec r n (c :: s) = None → replace r n fn (c :: s) = c :: replace r n fn s.
Proof. intros H. by rewrite replace_unfold, H. Qed.

Lemma replace_nil r n fn : exec r n [] = None → replace r n fn [] = [].
Proof. intros H. by rewrite replace_unfold, H. Qed.

Lemma replace_Some r n fn w s m :
  w ≠ [] → exec r n (w ++ s) = Some m → group m 0 = Some w →
  replace r n fn (w ++ s) = fn m ++ replace r n fn s.
Proof.
  intros Hw H Hg. rewrite replace_unfold, H, Hg.
  destruct w as [|c w]; [done|]. cbn [or_empty]. f_equal.
  by rewrite (drop_app_length (c :: w)).
Qed.

End MatcherFacts.

(** ** The two-alternative patterns of [Projection.ts]

    Both patterns of the serializer have the form
    [(f:\s*this(\d+)\.f|\.f)], for [f] = [id] and [f] = [labels]. *)

Section AccessPattern.

Lemma run_skip p s : run p s ++ skip p s = s.
Proof. induction s as [|c s IH]; simpl; [done|]. destruct (p c); simpl; congruence. Qed.

Lemma run_all p s : Forall (λ c, p c = true) (run p s).
Proof.
  induction s as [|c s IH]; simpl; [constructor|].
  destruct (p c) eqn:E; by constructor.
Qed.

Lemma run_app p u s :
  Forall (λ c, p c = true) u → (∀ c s', s = c :: s' → p c = false) →
  run p (u ++ s) = u ∧ skip p (u ++ s) = s.
Proof.
  intros Hu Hs. induction Hu as [|c u Hc Hu IH]; simpl.
  - destruct s as [|c s]; [done|]. simpl. by rewrite (Hs c s).
  - rewrite Hc. destruct IH as [-> ->]. done.
Qed.

(** A greedy repetition gives nothing back when what follows cannot start
    inside the class. *)
Lemma matchRe_Many {A} p s caps (k : jsstring → captures → option A) :
  (∀ c s', p c = true → k (c :: s') caps = None) →
  matchRe (Many p) s caps k = k (skip p s) caps.
Proof.
  intros Hk. cbn [matchRe]. induction s as [|c s IH]; [done|]. cbn [skip].
  destruct (p c) eqn:E; [|done]. rewrite IH.
  destruct (k (skip p s) caps) eqn:E'; [done|]. by apply Hk.
Qed.

Lemma shape_at_Some f s ws ds rest :
  shape_at f s = Some (ws, ds, rest) →
  s = shape_text f ws ds ++ rest ∧
  Forall (λ c, is_space c = true) ws ∧ Forall (λ c, is_digit c = true) ds ∧ ds ≠ [].
Proof.
  unfold shape_at, shape_text. intros H.
  destruct (strip_prefix (f ++ js ":") s) as [s1|] eqn:E1; [|done].
  cbn [mbind option_bind] in H.
  destruct (strip_prefix (js "this") (skip is_space s1)) as [s3|] eqn:E3; [|done].
  cbn [mbind option_bind] in H.
  destruct (strip_prefix (js "." ++ f) (skip is_digit s3)) as [s5|] eqn:E5; [|done].
  cbn [mbind option_bind] in H.
  destruct (run is_digit s3) as [|d ds'] eqn:Ed; [done|].
  injection H as <- <- <-.
  apply strip_prefix_Some in E1, E3, E5.
  split; [|split; [apply run_all|split; [rewrite <-Ed; apply run_all|done]]].
  rewrite E1. rewrite <-(run_skip is_space s1) at 1. rewrite E3.
  rewrite <-(run_skip is_digit s3) at 1. rewrite E5, Ed.
  by rewrite <-!(assoc_L (++)).
Qed.

Lemma space_not_t c s : is_space c = true → strip_prefix (js "this") (c :: s) = None.
Proof.
  intros H. apply strip_prefix_None_cons. intros <-. by vm_compute in H.
Qed.

Lemma digit_not_dot c : is_digit c = true → c ≠ 46%N.
Proof. intros H ->. by vm_compute in H. Qed.

Lemma shape_at_intro f ws ds rest :
  Forall (λ c, is_space c = true) ws → Forall (λ c, is_digit c = true) ds → ds ≠ [] →
  shape_at f (shape_text f ws ds ++ rest) = Some (ws, ds, rest).
Proof.
  intros Hws Hds Hne. unfold shape_at, shape_text.
  rewrite <-!(assoc_L (++)), (assoc_L (++) f), strip_prefix_app.
  cbn [mbind option_bind].
  destruct (run_app is_space ws (js "this" ++ ds ++ js "." ++ f ++ rest) Hws)
    as [-> ->]; [by intros c s' [= <- _]|].
  rewrite strip_prefix_app. cbn [mbind option_bind].
  destruct (run_app is_digit ds (js "." ++ f ++ rest) Hds) as [-> ->];
    [by intros c s' [= <- _]|].
  rewrite (assoc_L (++) (js ".")), strip_prefix_app. cbn [mbind option_bind].
  by destruct ds.
Qed.

Lemma take_length_app (u v : jsstring) :
  take (length (u ++ v) - length v) (u ++ v) = u.
Proof. by rewrite length_app, Nat.add_sub, take_app_length. Qed.

Lemma matchRe_Lit {A} l s caps (k : jsstring → captures → option A) :
  matchRe (Lit l) s caps k =
  match strip_prefix l s with Some s' => k s' caps | None => None end.
Proof. done. Qed.

Lemma matchRe_Class {A} p s caps (k : jsstring → captures → option A) :
  matchRe (Class p) s caps k =
  match s with c :: s' => if p c then k s' caps else None | [] => None end.
Proof. done. Qed.

Lemma matchRe_Seq {A} r1 r2 s caps (k : jsstring → captures → option A) :
  matchRe (Seq r1 r2) s caps k =
  matchRe r1 s caps (λ s' caps', matchRe r2 s' caps' k).
Proof. done. Qed.

Lemma matchRe_Alt {A} r1 r2 s caps (k : jsstring → captures → option A) :
  matchRe (Alt r1 r2) s caps k =
  match matchRe r1 s caps k with Some a => Some a | None => matchRe r2 s caps k end.
Proof. done. Qed.

Lemma matchRe_Group {A} i r s caps (k : jsstring → captures → option A) :
  matchRe (Group i r) s caps k =
  matchRe r s caps
    (λ s' caps', k s' (<[i := Some (take (length s - length s') s)]> caps')).
Proof. done. Qed.

Lemma exec_accessRe f s :
  exec (accessRe f) 2 s =
  match shape_at f s with
  | Some (ws, ds, _) =>
      Some [Some (shape_text f ws ds); Some (shape_text f ws ds); Some ds]
  | None =>
      match strip_prefix (js "." ++ f) s with
      | Some _ => Some [Some (js "." ++ f); Some (js "." ++ f); None]
      | None => None
      end
  end.
Proof.
  unfold exec, accessRe, Many1. cbn [replicate].
  rewrite matchRe_Group, matchRe_Alt.
  assert (Hsnd : matchRe (Lit (js "." ++ f)) s [None; None; None]
     (λ s' caps', Some (<[0:=Some (take (length s - length s') s)]>
        (<[1:=Some (take (length s - length s') s)]> caps'))) =
     match strip_prefix (js "." ++ f) s with
     | Some _ => Some [Some (js "." ++ f); Some (js "." ++ f); None]
     | None => None
     end).
  { rewrite matchRe_Lit. destruct (strip_prefix (js "." ++ f) s) as [s'|] eqn:E; [|done].
    apply strip_prefix_Some in E as ->. by rewrite take_length_app. }
  unfold shape_at.
  rewrite matchRe_Seq, matchRe_Lit.
  destruct (strip_prefix (f ++ js ":") s) as [s1|] eqn:E1; [|exact Hsnd].
  cbn [mbind option_bind].
  rewrite matchRe_Seq, matchRe_Many
    by (intros c s' Hc; by rewrite matchRe_Seq, matchRe_Lit, space_not_t).
  rewrite matchRe_Seq, matchRe_Lit.
  destruct (strip_prefix (js "this") (skip is_space s1)) as [s3|] eqn:E3; [|exact Hsnd].
  cbn [mbind option_bind].
  rewrite matchRe_Seq, matchRe_Group, matchRe_Seq, matchRe_Class.
  destruct s3 as [|d s3]; [exact Hsnd|]. cbn [run skip].
  destruct (is_digit d) eqn:Ed; [|by destruct (strip_prefix _ (d :: s3))].
  rewrite matchRe_Many.
  2:{ intros c s' Hc. rewrite matchRe_Lit.
      change (js "." ++ f) with (46%N :: f).
      rewrite strip_prefix_None_cons; [done|].
      intros Heq. by apply (digit_not_dot c). }
  rewrite matchRe_Lit.
  destruct (strip_prefix (js "." ++ f) (skip is_digit s3)) as [s5|] eqn:E5; [|exact Hsnd].
  cbn [mbind option_bind]. clear Hsnd.
  apply strip_prefix_Some in E1, E3, E5.
  assert (Hs3 : d :: s3 = (d :: run is_digit s3) ++ skip is_digit s3)
    by (by rewrite <-app_comm_cons, run_skip).
  rewrite Hs3 at 1 2. rewrite take_length_app.
  assert (Hs : s = shape_text f (run is_space s1) (d :: run is_digit s3) ++ s5).
  { unfold shape_text. rewrite E1. rewrite <-(run_skip is_space s1) at 1.
    rewrite E3, Hs3, E5. by rewrite <-!(assoc_L (++)). }
  rewrite Hs at 1 2 3 4. by rewrite take_length_app.
Qed.

End AccessPattern.

(** ** The rewriting passes of [Projection.ts] *)

Section ForkPasses.

Lemma idPass_eq s :
  replace Projection.idRegexPattern 2 Projection.idReplacer s = pass (js "id") s.
Proof. reflexivity. Qed.

Lemma labelPass_eq s :
  replace Projection.labelRegexPattern 2 Projection.labelReplacer s = pass (js "labels") s.
Proof. reflexivity. Qed.

Lemma shape_text_cons f ws ds : ∃ c w, shape_text f ws ds = c :: w.
Proof. unfold shape_text. destruct f; simpl; eauto. Qed.

Lemma pass_shape f s ws ds rest :
  shape_at f s = Some (ws, ds, rest) →
  pass f s = call f (js "this" ++ ds) ++ pass f rest.
Proof.
  intros H. pose proof (exec_accessRe f s) as E. rewrite H in E.
  apply shape_at_Some in H as (-> & _ & _ & _).
  destruct (shape_text_cons f ws ds) as (c & w & Hw).
  assert (Hne : shape_text f ws ds ≠ []) by (by rewrite Hw).
  unfold pass. rewrite (replace_Some _ _ _ _ _ _ Hne E eq_refl).
  f_equal. unfold accessReplacer, group. cbn [lookup list_lookup mjoin option_join].
  rewrite Hw. cbn [truthy or_empty]. unfold call. by rewrite <-!(assoc_L (++)).
Qed.

Lemma pass_bare f s rest :
  shape_at f s = None → strip_prefix (js "." ++ f) s = Some rest →
  pass f s = call f (js "this") ++ pass f rest.
Proof.
  intros H1 H2. pose proof (exec_accessRe f s) as E. rewrite H1, H2 in E.
  apply strip_prefix_Some in H2 as ->.
  assert (Hne : js "." ++ f ≠ []) by done.
  unfold pass. by rewrite (replace_Some _ _ _ _ _ _ Hne E eq_refl).
Qed.

Lemma pass_keep f c s :
  shape_at f (c :: s) = None → strip_prefix (js "." ++ f) (c :: s) = None →
  pass f (c :: s) = c :: pass f s.
Proof.
  intros H1 H2. apply replace_None_cons. by rewrite exec_accessRe, H1, H2.
Qed.

Lemma pass_nil f : pass f [] = [].
Proof.
  apply replace_nil. rewrite exec_accessRe.
  unfold shape_at. by destruct f.
Qed.

(** A unit that is neither a dot nor the first unit of [f] starts no match. *)
Lemma pass_keep_other f c s :
  c ≠ 46%N → head f ≠ Some c → f ≠ [] → pass f (c :: s) = c :: pass f s.
Proof.
  intros Hdot Hf Hne. apply pass_keep.
  - unfold shape_at. destruct f as [|a f]; [done|].
    rewrite <-app_comm_cons, strip_prefix_None_cons; [done|]. naive_solver.
  - change (js "." ++ f) with (46%N :: f). by rewrite strip_prefix_None_cons.
Qed.

Lemma pass_skip f u s :
  f ≠ [] → Forall (λ c, c ≠ 46%N ∧ head f ≠ Some c) u →
  pass f (u ++ s) = u ++ pass f s.
Proof.
  intros Hf Hu. induction Hu as [|c u [H1 H2] Hu IH]; [done|].
  rewrite <-!app_comm_cons, pass_keep_other by done. by rewrite IH.
Qed.

End ForkPasses.

(** ** Every occurrence is covered *)

Section Covering.

Lemma sources_cons p ps : sources (p :: ps) = source p ++ sources ps.
Proof. done. Qed.

Lemma targets_cons p ps : targets (p :: ps) = target p ++ targets ps.
Proof. done. Qed.

Lemma accessor_no_dot f : accessor f → 46%N ∉ f.
Proof.
  intros [-> | ->]; rewrite list_elem_of_In; simpl; intuition discriminate.
Qed.

Lemma accessor_prefix_eq f g x y : accessor f → accessor g → f ++ x = g ++ y → f = g.
Proof. intros [-> | ->] [-> | ->] H; first [done | discriminate H]. Qed.

Lemma app_eq_dot_inv (u v x y : jsstring) :
  u ++ 46%N :: v = x ++ 46%N :: y → 46%N ∉ u →
  (∃ z, x = u ++ 46%N :: z ∧ v = z ++ 46%N :: y) ∨ (x = u ∧ v = y) ∨
  (∃ z, u = x ++ 46%N :: z).
Proof.
  revert x. induction u as [|a u IH]; intros [|b x] H Hu; simplify_eq/=.
  - right; left; done.
  - left. by exists x.
  - right; right. by exists u.
  - apply not_elem_of_cons in Hu as [? Hu].
    destruct (IH x) as [(z & -> & ->)|[[-> ->]|(z & ->)]]; [done..| | |].
    + left. by exists z.
    + right; left; done.
    + right; right. by exists z.
Qed.

Lemma app_eq_no_dot (g l z r : jsstring) :
  46%N ∉ g → g ++ l = z ++ 46%N :: r → ∃ z', z = g ++ z'.
Proof.
  revert z. induction g as [|a g IH]; intros z Hd E; [by exists z|].
  apply not_elem_of_cons in Hd as [? Hd].
  destruct z as [|b z]; simplify_eq/=.
  destruct (IH z Hd) as [z' ->]; [done|]. by exists z'.
Qed.

Lemma scanned_covers ps :
  Forall call_shape ps → scanned ps → covers ps (sources ps).
Proof.
  intros Hok Hsc f pre post Hf. js_eval. revert pre.
  induction Hok as [|p ps Hp Hok IH]; intros pre Heq.
  - by destruct pre.
  - destruct p as [c|g src arg]; simpl in Hsc, Hp.
    + destruct Hsc as [Hc Hsc]. rewrite sources_cons in Heq. simpl in Heq.
      destruct pre as [|a pre].
      * exfalso. apply (Hc f Hf). exists post. by rewrite Heq.
      * injection Heq as <- Heq. destruct (IH Hsc pre Heq) as (ps1 & src & arg & ps2 & -> & E).
        exists (Kept c :: ps1), src, arg, ps2. split; [done|].
        rewrite sources_cons. simpl. by rewrite E.
    + destruct Hp as (Hg & body & -> & Hbody). js_eval. rewrite sources_cons in Heq.
      simpl in Heq. rewrite <-!(assoc_L (++)) in Heq. simpl in Heq.
      destruct (app_eq_dot_inv _ _ _ _ Heq Hbody) as [(z & -> & E)|[[-> E]|(z & ->)]].
      * assert (∃ z', z = g ++ z') as [z' ->]
          by (eapply app_eq_no_dot; [by apply accessor_no_dot|exact E]).
        rewrite <-(assoc_L (++)) in E. apply app_inv_head in E.
        destruct (IH Hsc z') as (ps1 & src & arg' & ps2 & -> & E').
        { by rewrite E. }
        exists (Call g (body ++ [46%N] ++ g) arg :: ps1), src, arg', ps2.
        split; [done|]. rewrite sources_cons. simpl.
        rewrite <-!(assoc_L (++)). simpl. do 2 f_equal.
        by rewrite E', <-!(assoc_L (++)).
      * assert (f = g) as -> by (symmetry; by eapply accessor_prefix_eq).
        exists [], (body ++ [46%N] ++ g), arg, ps. done.
      * exfalso. apply Hbody. set_solver.
Qed.

End Covering.

(** ** The two passes of [Projection.ts] do not disturb each other *)

Section ForkDecomposition.

Local Abbreviation ID := (js "id").
Local Abbreviation LABELS := (js "labels").

Lemma space_facts c : is_space c = true → c ≠ 46%N ∧ c ≠ 105%N ∧ c ≠ 108%N.
Proof. intros H. repeat split; intros ->; by vm_compute in H. Qed.

Lemma digit_facts c : is_digit c = true → c ≠ 46%N ∧ c ≠ 105%N ∧ c ≠ 108%N.
Proof. intros H. repeat split; intros ->; by vm_compute in H. Qed.

Lemma fork_piece_shape p : fork_piece p → call_shape p.
Proof.
  destruct p as [c|f src arg]; [done|]. intros [Hf H]. split; [done|].
  destruct H as [[-> _]|(ws & ds & Hws & Hds & _ & -> & _)].
  - exists []. split; [done|]. apply not_elem_of_nil.
  - exists ((f ++ js ":") ++ ws ++ js "this" ++ ds). split.
    + unfold shape_text. by rewrite <-!(assoc_L (++)).
    + rewrite !not_elem_of_app. repeat split.
      * by apply accessor_no_dot.
      * rewrite list_elem_of_In. vm_compute. intuition discriminate.
      * intros H. eapply Forall_forall in Hws; [|done]. by apply space_facts in Hws as [? _].
      * rewrite list_elem_of_In. vm_compute. intuition discriminate.
      * intros H. eapply Forall_forall in Hds; [|done]. by apply digit_facts in Hds as [? _].
Qed.

(** What the [id] pass does at the head of a text. *)
Lemma idpass_cases s :
  (s = [] ∧ pass ID s = []) ∨
  (∃ y, pass ID s = 105%N :: 100%N :: y) ∨
  (∃ c s', s = c :: s' ∧ pass ID s = c :: pass ID s' ∧
           shape_at ID s = None ∧ strip_prefix (js ".id") s = None).
Proof.
  destruct s as [|c s]; [left; by rewrite pass_nil|right].
  destruct (shape_at ID (c :: s)) as [[[ws ds] rest]|] eqn:E1.
  { left. rewrite (pass_shape _ _ _ _ _ E1). by eexists. }
  destruct (strip_prefix (js ".id") (c :: s)) as [rest|] eqn:E2.
  { left. rewrite (pass_bare _ _ _ E1 E2). by eexists. }
  right. exists c, s. by rewrite pass_keep.
Qed.

Lemma idpass_head_inv s a y :
  pass ID s = a :: y → a ≠ 105%N → ∃ s', s = a :: s' ∧ y = pass ID s'.
Proof.
  intros H Ha.
  destruct (idpass_cases s) as [[_ E]|[[z E]|(c & s' & -> & E & _)]];
    rewrite E in H; simplify_eq. by exists s'.
Qed.

Lemma idpass_head_i_inv s b y :
  pass ID s = 105%N :: b :: y → b ≠ 100%N →
  ∃ s', s = 105%N :: s' ∧ b :: y = pass ID s'.
Proof.
  intros H Hb.
  destruct (idpass_cases s) as [[_ E]|[[z E]|(c & s' & -> & E & _)]];
    rewrite E in H; simplify_eq. by exists s'.
Qed.

Lemma idpass_prefix_inv u : ∀ s y,
  Forall (λ c, c ≠ 105%N) u → pass ID s = u ++ y →
  ∃ s', s = u ++ s' ∧ y = pass ID s'.
Proof.
  induction u as [|a u IH]; intros s y Hu H; [by exists s|].
  apply Forall_cons in Hu as [Ha Hu]. rewrite <-app_comm_cons in H.
  apply idpass_head_inv in H as (s1 & -> & H); [|done].
  symmetry in H. apply IH in H as (s' & -> & H); [|done]. by exists s'.
Qed.

(** The [id] pass creates no match of the [labels] pattern. *)
Lemma idpass_no_new_label c s :
  shape_at LABELS (c :: s) = None → strip_prefix (js ".labels") (c :: s) = None →
  shape_at LABELS (c :: pass ID s) = None ∧
  strip_prefix (js ".labels") (c :: pass ID s) = None.
Proof.
  intros H1 H2. split.
  - destruct (shape_at LABELS (c :: pass ID s)) as [[[ws ds] rest]|] eqn:E; [|done].
    exfalso. apply shape_at_Some in E as (E & Hws & Hds & Hne).
    unfold shape_text in E. js_eval_in E. rewrite <-!(assoc_L (++)) in E.
    cbn [app] in E. injection E as -> E.
    change (97 :: 98 :: 101 :: 108 :: 115 :: 58 :: ws ++ 116 :: 104 :: ?x)%N
      with ([97; 98; 101; 108; 115; 58]%N ++ ws ++ [116; 104]%N ++ x) in E.
    rewrite !(assoc_L (++)) in E. rewrite <-(assoc_L (++) _ ws) in E.
    apply idpass_prefix_inv in E as (s1 & -> & E).
    2:{ rewrite !Forall_app. repeat split.
        - by repeat constructor.
        - eapply Forall_impl; [exact Hws|]. intros a Ha. by apply space_facts in Ha as (? & ? & ?).
        - by repeat constructor. }
    symmetry in E. apply idpass_head_i_inv in E as (s2 & -> & E); [|done].
    change (115 :: ds ++ ?x)%N with ((115%N :: ds) ++ x) in E.
    symmetry in E. apply idpass_prefix_inv in E as (s3 & -> & E).
    2:{ constructor; [done|]. eapply Forall_impl; [exact Hds|].
        intros a Ha. by apply digit_facts in Ha as (? & ? & ?). }
    symmetry in E.
    change (46 :: 108 :: 97 :: 98 :: 101 :: 108 :: 115 :: rest)%N
      with ([46; 108; 97; 98; 101; 108; 115]%N ++ rest) in E.
    apply idpass_prefix_inv in E as (s4 & -> & E); [|by repeat constructor].
    pose proof (shape_at_intro LABELS ws ds s4 Hws Hds Hne) as Hs.
    unfold shape_text in Hs. js_eval_in Hs. js_eval_in H1.
    rewrite <-!(assoc_L (++)) in Hs. cbn [app] in Hs.
    rewrite <-!(assoc_L (++)) in H1. cbn [app] in H1.
    by pose proof (eq_trans (eq_sym Hs) H1).
  - destruct (strip_prefix (js ".labels") (c :: pass ID s)) as [rest|] eqn:E; [|done].
    exfalso. apply strip_prefix_Some in E. js_eval_in E. cbn [app] in E.
    injection E as -> E.
    change (108 :: 97 :: 98 :: 101 :: 108 :: 115 :: rest)%N
      with ([108; 97; 98; 101; 108; 115]%N ++ rest) in E.
    apply idpass_prefix_inv in E as (s1 & -> & E); [|by repeat constructor].
    by vm_compute in H2.
Qed.

(** The [id] pass copies what the [labels] pattern matches. *)
Lemma idpass_over_bare_label y :
  pass ID (js ".labels" ++ y) = js ".labels" ++ pass ID y.
Proof.
  js_eval. cbn [app]. rewrite pass_keep by done.
  by rewrite 6!pass_keep_other by done.
Qed.

Lemma idpass_over_label_shape ws ds y :
  Forall (λ c, is_space c = true) ws → Forall (λ c, is_digit c = true) ds →
  pass ID (shape_text LABELS ws ds ++ y) = shape_text LABELS ws ds ++ pass ID y.
Proof.
  intros Hws Hds. unfold shape_text. rewrite <-!(assoc_L (++)).
  assert (Hskip : ∀ p u z, (∀ c, p c = true → c ≠ 46%N ∧ c ≠ 105%N ∧ c ≠ 108%N) →
            Forall (λ c, p c = true) u → pass ID (u ++ z) = u ++ pass ID z).
  { intros p u z Hp Hu. apply pass_skip; [done|].
    eapply Forall_impl; [exact Hu|]. intros a Ha. apply Hp in Ha as (? & ? & ?).
    split; [done|]. by intros [= ?]. }
  js_eval. cbn [app]. rewrite 7!pass_keep_other by done.
  rewrite (Hskip is_space) by (done || apply space_facts).
  cbn [app]. rewrite 2!pass_keep_other by done.
  rewrite pass_keep by done. rewrite pass_keep_other by done.
  rewrite (Hskip is_digit) by (done || apply digit_facts).
  cbn [app]. rewrite pass_keep by done.
  by rewrite 6!pass_keep_other by done.
Qed.

(** The [labels] pass copies the calls the [id] pass wrote. *)
Lemma labelpass_over_id_call ds y :
  Forall (λ c, is_digit c = true) ds →
  pass LABELS (call ID (js "this" ++ ds) ++ y) =
  call ID (js "this" ++ ds) ++ pass LABELS y.
Proof.
  intros Hds. apply pass_skip; [done|]. unfold call.
  rewrite !Forall_app. repeat split; try (js_eval; by repeat constructor).
  eapply Forall_impl; [exact Hds|]. intros a Ha.
  apply digit_facts in Ha as (? & ? & ?). split; [done|]. by intros [= ?].
Qed.

Lemma accessor_id : accessor ID.
Proof. by left. Qed.

Lemma accessor_labels : accessor LABELS.
Proof. by right. Qed.

Lemma not_prefix_of_strip p s : strip_prefix p s = None → ¬ p `prefix_of` s.
Proof.
  intros H [r ->]. by rewrite strip_prefix_app in H.
Qed.

(** The text is cut from left to right: at each position the serializer
    rewrites an [id] match, else a [labels] match, else copies a unit. *)
Lemma fork_decompose s :
  ∃ ps, sources ps = s ∧ targets ps = pass LABELS (pass ID s) ∧
        Forall fork_piece ps ∧ scanned ps.
Proof.
  remember (length s) as n eqn:Hn. revert s Hn.
  induction n as [n IH] using lt_wf_ind. intros s ->.
  destruct s as [|c s].
  { exists []. by rewrite !pass_nil. }
  destruct (shape_at ID (c :: s)) as [[[ws ds] rest]|] eqn:E1.
  { rewrite (pass_shape _ _ _ _ _ E1).
    apply shape_at_Some in E1 as (E & Hws & Hds & Hne). rewrite E.
    destruct (shape_text_cons ID ws ds) as (a & w & Hw).
    destruct (IH (length rest)) with (s := rest) as (ps & <- & Ht & Hok & Hsc);
      [rewrite E, Hw, length_app; simpl; lia|done|].
    exists (Call ID (shape_text ID ws ds) (js "this" ++ ds) :: ps).
    rewrite sources_cons, targets_cons, Ht, labelpass_over_id_call by done.
    repeat split; [|done]. constructor; [|done].
    split; [apply accessor_id|]. right. by exists ws, ds. }
  destruct (strip_prefix (js ".id") (c :: s)) as [rest|] eqn:E2.
  { rewrite (pass_bare _ _ _ E1 E2). apply strip_prefix_Some in E2. rewrite E2.
    destruct (IH (length rest)) with (s := rest) as (ps & <- & Ht & Hok & Hsc);
      [rewrite E2, length_app; simpl; lia|done|].
    exists (Call ID (js ".id") (js "this") :: ps).
    rewrite sources_cons, targets_cons, Ht.
    rewrite <-(labelpass_over_id_call []) by done.
    repeat split; [|done]. constructor; [|done].
    split; [apply accessor_id|]. by left. }
  rewrite (pass_keep _ _ _ E1 E2).
  destruct (shape_at LABELS (c :: s)) as [[[ws ds] rest]|] eqn:E3.
  { apply shape_at_Some in E3 as (E & Hws & Hds & Hne).
    rewrite <-(pass_keep _ _ _ E1 E2). rewrite E.
    rewrite idpass_over_label_shape by done.
    rewrite (pass_shape LABELS _ ws ds (pass ID rest)) by by apply shape_at_intro.
    destruct (shape_text_cons LABELS ws ds) as (a & w & Hw).
    destruct (IH (length rest)) with (s := rest) as (ps & <- & Ht & Hok & Hsc);
      [rewrite E, Hw, length_app; simpl; lia|done|].
    exists (Call LABELS (shape_text LABELS ws ds) (js "this" ++ ds) :: ps).
    rewrite sources_cons, targets_cons, Ht.
    repeat split; [|done]. constructor; [|done].
    split; [apply accessor_labels|]. right. by exists ws, ds. }
  destruct (strip_prefix (js ".labels") (c :: s)) as [rest|] eqn:E4.
  { apply strip_prefix_Some in E4. rewrite <-(pass_keep _ _ _ E1 E2). rewrite E4.
    rewrite idpass_over_bare_label.
    rewrite (pass_bare LABELS _ (pass ID rest)); [|done|apply strip_prefix_app].
    destruct (IH (length rest)) with (s := rest) as (ps & <- & Ht & Hok & Hsc);
      [rewrite E4, length_app; simpl; lia|done|].
    exists (Call LABELS (js ".labels") (js "this") :: ps).
    rewrite sources_cons, targets_cons, Ht.
    repeat split; [|done]. constructor; [|done].
    split; [apply accessor_labels|]. by left. }
  destruct (idpass_no_new_label c s E3 E4) as [E3' E4'].
  rewrite (pass_keep _ _ _ E3' E4').
  destruct (IH (length s)) with (s := s) as (ps & <- & Ht & Hok & Hsc);
    [simpl; lia|done|].
  exists (Kept c :: ps). rewrite sources_cons, targets_cons, Ht.
  repeat split; [by constructor| |done].
  intros f [-> | ->]; by apply not_prefix_of_strip.
Qed.

(** The serializer of [Projection.ts] rewrites every occurrence. *)
Lemma fork_rewrites text :
  ∃ ps, sources ps = text ∧ targets ps = pass LABELS (pass ID text) ∧
        Forall fork_piece ps ∧ covers ps text.
Proof.
  destruct (fork_decompose text) as (ps & Hs & Ht & Hok & Hsc).
  exists ps. repeat split; [done..|]. rewrite <-Hs.
  apply scanned_covers; [|done].
  eapply Forall_impl; [exact Hok|]. apply fork_piece_shape.
Qed.

(** The two passes amount to the single scan. *)
Lemma scan_from_cons fuel c s :
  scan_from (S fuel) (c :: s) =
  match shape_at ID (c :: s) with
  | Some (ws, ds, rest) =>
      Call ID (shape_text ID ws ds) (js "this" ++ ds) :: scan_from fuel rest
  | None =>
  match strip_prefix (js ".id") (c :: s) with
  | Some rest => Call ID (js ".id") (js "this") :: scan_from fuel rest
  | None =>
  match shape_at LABELS (c :: s) with
  | Some (ws, ds, rest) =>
      Call LABELS (shape_text LABELS ws ds) (js "this" ++ ds) :: scan_from fuel rest
  | None =>
  match strip_prefix (js ".labels") (c :: s) with
  | Some rest => Call LABELS (js ".labels") (js "this") :: scan_from fuel rest
  | None => Kept c :: scan_from fuel s
  end end end end.
Proof. reflexivity. Qed.

Lemma scan_from_spec fuel : ∀ s, length s ≤ fuel →
  sources (scan_from fuel s) = s ∧
  targets (scan_from fuel s) = pass LABELS (pass ID s) ∧
  Forall fork_piece (scan_from fuel s) ∧ scanned (scan_from fuel s).
Proof.
  induction fuel as [|fuel IH]; intros s Hlen.
  { destruct s; [|simpl in Hlen; lia]. by rewrite !pass_nil. }
  destruct s as [|c s].
  { by rewrite !pass_nil. }
  rewrite scan_from_cons.
  destruct (shape_at ID (c :: s)) as [[[ws ds] rest]|] eqn:E1.
  { rewrite (pass_shape _ _ _ _ _ E1).
    apply shape_at_Some in E1 as (E & Hws & Hds & Hne).
    destruct (shape_text_cons ID ws ds) as (a & w & Hw).
    destruct (IH rest) as (Hs & Ht & Hok & Hsc).
    { rewrite E, Hw, length_app in Hlen. simpl in Hlen. lia. }
    rewrite sources_cons, targets_cons, Ht, Hs, labelpass_over_id_call by done.
    repeat split; [done| |done]. constructor; [|done].
    split; [apply accessor_id|]. right. by exists ws, ds. }
  destruct (strip_prefix (js ".id") (c :: s)) as [rest|] eqn:E2.
  { rewrite (pass_bare _ _ _ E1 E2). apply strip_prefix_Some in E2.
    destruct (IH rest) as (Hs & Ht & Hok & Hsc).
    { rewrite E2, length_app in Hlen. simpl in Hlen. lia. }
    rewrite sources_cons, targets_cons, Ht, Hs.
    rewrite <-(labelpass_over_id_call []) by done.
    repeat split; [done| |done]. constructor; [|done].
    split; [apply accessor_id|]. by left. }
  rewrite (pass_keep _ _ _ E1 E2).
  destruct (shape_at LABELS (c :: s)) as [[[ws ds] rest]|] eqn:E3.
  { apply shape_at_Some in E3 as (E & Hws & Hds & Hne).
    rewrite <-(pass_keep _ _ _ E1 E2). rewrite E.
    rewrite idpass_over_label_shape by done.
    rewrite (pass_shape LABELS _ ws ds (pass ID rest)) by by apply shape_at_intro.
    destruct (shape_text_cons LABELS ws ds) as (a & w & Hw).
    destruct (IH rest) as (Hs & Ht & Hok & Hsc).
    { rewrite E, Hw, length_app in Hlen. simpl in Hlen. lia. }
    rewrite sources_cons, targets_cons, Ht, Hs.
    repeat split; [|done]. constructor; [|done].
    split; [apply accessor_labels|]. right. by exists ws, ds. }
  destruct (strip_prefix (js ".labels") (c :: s)) as [rest|] eqn:E4.
  { apply strip_prefix_Some in E4. rewrite <-(pass_keep _ _ _ E1 E2). rewrite E4.
    rewrite idpass_over_bare_label.
    rewrite (pass_bare LABELS _ (pass ID rest)); [|done|apply strip_prefix_app].
    destruct (IH rest) as (Hs & Ht & Hok & Hsc).
    { rewrite E4, length_app in Hlen. simpl in Hlen. lia. }
    rewrite sources_cons, targets_cons, Ht, Hs.
    repeat split; [|done]. constructor; [|done].
    split; [apply accessor_labels|]. by left. }
  destruct (idpass_no_new_label c s E3 E4) as [E3' E4'].
  rewrite (pass_keep _ _ _ E3' E4').
  destruct (IH s) as (Hs & Ht & Hok & Hsc); [simpl in Hlen; lia|].
  rewrite sources_cons, targets_cons, Ht, Hs.
  repeat split; [by constructor| |done].
  intros f [-> | ->]; rewrite Hs; by apply not_prefix_of_strip.
Qed.

Lemma fork_scan_spec text :
  sources (fork_scan text) = text ∧
  targets (fork_scan text) = pass LABELS (pass ID text) ∧
  Forall fork_piece (fork_scan text) ∧ covers (fork_scan text) text.
Proof.
  destruct (scan_from_spec (length text) text) as (Hs & Ht & Hok & Hsc); [done|].
  fold (fork_scan text) in *. repeat split; [done..|].
  rewrite <-Hs at 2. apply scanned_covers; [|done].
  eapply Forall_impl; [exact Hok|]. apply fork_piece_shape.
Qed.

End ForkDecomposition.

(** ** The single pass of the second serializer *)

Section AltDecomposition.

Lemma exec_regexPattern s :
  exec ProjectionAlt.regexPattern 1 s =
  match strip_prefix (js ".id") s with
  | Some _ => Some [Some (js ".id"); Some (js ".id")]
  | None =>
      match strip_prefix (js ".labels") s with
      | Some _ => Some [Some (js ".labels"); Some (js ".labels")]
      | None => None
      end
  end.
Proof.
  unfold exec, ProjectionAlt.regexPattern. cbn [replicate].
  rewrite matchRe_Group, matchRe_Alt, !matchRe_Lit.
  destruct (strip_prefix (js ".id") s) as [r|] eqn:E1.
  { apply strip_prefix_Some in E1 as ->. by rewrite take_length_app. }
  destruct (strip_prefix (js ".labels") s) as [r|] eqn:E2; [|done].
  apply strip_prefix_Some in E2 as ->. by rewrite take_length_app.
Qed.

Lemma alt_pass_id v s rest :
  strip_prefix (js ".id") s = Some rest →
  alt_pass v s = call (js "id") v ++ alt_pass v rest.
Proof.
  intros H. pose proof (exec_regexPattern s) as E. rewrite H in E.
  apply strip_prefix_Some in H as ->.
  assert (Hne : js ".id" ≠ []) by done.
  unfold alt_pass. by rewrite (replace_Some _ _ _ _ _ _ Hne E eq_refl).
Qed.

Lemma alt_pass_labels v s rest :
  strip_prefix (js ".id") s = None → strip_prefix (js ".labels") s = Some rest →
  alt_pass v s = call (js "labels") v ++ alt_pass v rest.
Proof.
  intros H1 H. pose proof (exec_regexPattern s) as E. rewrite H1, H in E.
  apply strip_prefix_Some in H as ->.
  assert (Hne : js ".labels" ≠ []) by done.
  unfold alt_pass. by rewrite (replace_Some _ _ _ _ _ _ Hne E eq_refl).
Qed.

Lemma alt_pass_keep v c s :
  strip_prefix (js ".id") (c :: s) = None →
  strip_prefix (js ".labels") (c :: s) = None →
  alt_pass v (c :: s) = c :: alt_pass v s.
Proof.
  intros H1 H2. apply replace_None_cons. by rewrite exec_regexPattern, H1, H2.
Qed.

Lemma alt_decompose v s :
  ∃ ps, sources ps = s ∧ targets ps = alt_pass v s ∧
        Forall (alt_piece v) ps ∧ scanned ps.
Proof.
  remember (length s) as n eqn:Hn. revert s Hn.
  induction n as [n IH] using lt_wf_ind. intros s ->.
  destruct s as [|c s].
  { exists []. split; [done|]. split; [|by split].
    symmetry. apply replace_nil. by rewrite exec_regexPattern. }
  destruct (strip_prefix (js ".id") (c :: s)) as [rest|] eqn:E1.
  { rewrite (alt_pass_id _ _ _ E1). apply strip_prefix_Some in E1.
    destruct (IH (length rest)) with (s := rest) as (ps & <- & Ht & Hok & Hsc);
      [rewrite E1, length_app; simpl; lia|done|].
    exists (Call (js "id") (js ".id") v :: ps).
    rewrite sources_cons, targets_cons, Ht.
    repeat split; [done| |done]. constructor; [|done]. split; [by left|done]. }
  destruct (strip_prefix (js ".labels") (c :: s)) as [rest|] eqn:E2.
  { rewrite (alt_pass_labels _ _ _ E1 E2). apply strip_prefix_Some in E2.
    destruct (IH (length rest)) with (s := rest) as (ps & <- & Ht & Hok & Hsc);
      [rewrite E2, length_app; simpl; lia|done|].
    exists (Call (js "labels") (js ".labels") v :: ps).
    rewrite sources_cons, targets_cons, Ht.
    repeat split; [done| |done]. constructor; [|done]. split; [by right|done]. }
  rewrite (alt_pass_keep _ _ _ E1 E2).
  destruct (IH (length s)) with (s := s) as (ps & <- & Ht & Hok & Hsc);
    [simpl; lia|done|].
  exists (Kept c :: ps). rewrite sources_cons, targets_cons, Ht.
  repeat split; [by constructor| |done].
  intros f [-> | ->]; by apply not_prefix_of_strip.
Qed.

Lemma alt_piece_shape v p : alt_piece v p → call_shape p.
Proof.
  destruct p as [c|f src arg]; [done|]. intros (Hf & -> & _). split; [done|].
  exists []. split; [done|]. apply not_elem_of_nil.
Qed.

Lemma alt_scan_from_cons fuel v c s :
  alt_scan_from (S fuel) v (c :: s) =
  match strip_prefix (js ".id") (c :: s) with
  | Some rest => Call (js "id") (js ".id") v :: alt_scan_from fuel v rest
  | None =>
  match strip_prefix (js ".labels") (c :: s) with
  | Some rest => Call (js "labels") (js ".labels") v :: alt_scan_from fuel v rest
  | None => Kept c :: alt_scan_from fuel v s
  end end.
Proof. reflexivity. Qed.

Lemma alt_scan_from_spec v fuel : ∀ s, length s ≤ fuel →
  sources (alt_scan_from fuel v s) = s ∧
  targets (alt_scan_from fuel v s) = alt_pass v s ∧
  Forall (alt_piece v) (alt_scan_from fuel v s) ∧ scanned (alt_scan_from fuel v s).
Proof.
  assert (Hnil : alt_pass v [] = []).
  { apply replace_nil. by rewrite exec_regexPattern. }
  induction fuel as [|fuel IH]; intros s Hlen.
  { destruct s; [|simpl in Hlen; lia]. by rewrite Hnil. }
  destruct s as [|c s].
  { by rewrite Hnil. }
  rewrite alt_scan_from_cons.
  destruct (strip_prefix (js ".id") (c :: s)) as [rest|] eqn:E1.
  { rewrite (alt_pass_id _ _ _ E1). apply strip_prefix_Some in E1.
    destruct (IH rest) as (Hs & Ht & Hok & Hsc).
    { rewrite E1, length_app in Hlen. simpl in Hlen. lia. }
    rewrite sources_cons, targets_cons, Ht, Hs.
    repeat split; [done| |done]. constructor; [|done]. split; [by left|done]. }
  destruct (strip_prefix (js ".labels") (c :: s)) as [rest|] eqn:E2.
  { rewrite (alt_pass_labels _ _ _ E1 E2). apply strip_prefix_Some in E2.
    destruct (IH rest) as (Hs & Ht & Hok & Hsc).
    { rewrite E2, length_app in Hlen. simpl in Hlen. lia. }
    rewrite sources_cons, targets_cons, Ht, Hs.
    repeat split; [done| |done]. constructor; [|done]. split; [by right|done]. }
  rewrite (alt_pass_keep _ _ _ E1 E2).
  destruct (IH s) as (Hs & Ht & Hok & Hsc); [simpl in Hlen; lia|].
  rewrite sources_cons, targets_cons, Ht, Hs.
  repeat split; [by constructor| |done].
  intros f [-> | ->]; rewrite Hs; by apply not_prefix_of_strip.
Qed.

Lemma alt_scan_spec v text :
  sources (alt_scan v text) = text ∧
  targets (alt_scan v text) = alt_pass v text ∧
  Forall (alt_piece v) (alt_scan v text) ∧ covers (alt_scan v text) text.
Proof.
  destruct (alt_scan_from_spec v (length text) text) as (Hs & Ht & Hok & Hsc); [done|].
  fold (alt_scan v text) in *. repeat split; [done..|].
  rewrite <-Hs at 2. apply scanned_covers; [|done].
  eapply Forall_impl; [exact Hok|]. apply alt_piece_shape.
Qed.

End AltDecomposition.

(** ** The serializers, column by column *)

Section Columns.
Import ProjectionClass.
Context {Err Env Expr : Type}.
Variable compile : Expr → M Err Env jsstring.

Lemma fork_serializeColumn col env text env1 suffix env2 :
  compile (column_expr col) env = Ok text env1 →
  alias_suffix compile col env1 = Ok suffix env2 →
  Projection.serializeColumn compile col env =
  Ok (pass (js "labels") (pass (js "id") text) ++ suffix) env2.
Proof.
  destruct col as [e|e alias]; cbn [column_expr alias_suffix Projection.serializeColumn];
    unfold bind, ret; intros -> H.
  - injection H as <- <-. by rewrite app_nil_r.
  - destruct (aliasStr compile alias env1) as [a env'|]; [|done].
    by injection H as <- <-.
Qed.

Lemma alt_serializeColumn col env text env1 suffix env2 :
  compile (column_expr col) env = Ok text env1 →
  alias_suffix compile col env1 = Ok suffix env2 →
  ProjectionAlt.serializeColumn compile col env =
  Ok ((if alt_enabled col text then alt_pass (alt_name col text) text else text)
      ++ suffix) env2.
Proof.
  destruct col as [e|e alias];
    cbn [column_expr alias_suffix ProjectionAlt.serializeColumn alt_enabled alt_name];
    unfold bind, ret; intros -> H.
  - injection H as <- <-. rewrite app_nil_r.
    by destruct (truthy (ProjectionAlt.variableMatch text)).
  - destruct (aliasStr compile alias env1) as [a env'|]; [|done].
    by injection H as <- <-.
Qed.
End Columns.

Section ColumnFacts.

Lemma targets_app ps1 ps2 : targets (ps1 ++ ps2) = targets ps1 ++ targets ps2.
Proof. unfold targets. by rewrite fmap_app, concat_app. Qed.

Lemma sources_app ps1 ps2 : sources (ps1 ++ ps2) = sources ps1 ++ sources ps2.
Proof. unfold sources. by rewrite fmap_app, concat_app. Qed.

(** A text that is written with a call has an opening parenthesis. *)
Lemma rewrites_all_paren ok text out pre f post :
  accessor f → text = pre ++ (js "." ++ f) ++ post →
  rewrites_all ok text out → 40%N ∈ out.
Proof.
  intros Hf Htext (ps & _ & <- & _ & Hcov).
  destruct (Hcov f pre post Hf Htext) as (ps1 & src & arg & ps2 & -> & _).
  rewrite targets_app, targets_cons. cbn [target]. unfold call. js_eval.
  rewrite !elem_of_app. right; left. do 3 right. left. by left.
Qed.

End ColumnFacts.

(** ** Claims about the serializer *)

Section SerializerClaims.
Import ProjectionClass.

(** C1 (as amended).  Both serializers post-process the rendered text of the
    column expression, and only then append the optional [ AS alias] suffix.

    [Projection.ts], for every column, aliased or plain: the output is the
    rendered text rewritten by one scan from left to right, [fork_scan].
    Where [id:], white space, [this], one or more digits and [.id] begin at
    the scanning position, the whole stretch becomes [id: id(thisN)] with
    these digits; else where [.id] begins there, it becomes [id: id(this)];
    else the same two rules for [labels]; else one unit is copied; the scan
    goes on after what it consumed.  Every occurrence of [.id] and of
    [.labels] in the rendered text ends a stretch that is so rewritten.

    The second serializer, for a column that is aliased or whose extracted
    variable name is not empty: every occurrence of [.id] becomes
    [id: id(v)] and every occurrence of [.labels] becomes
    [labels: labels(v)], every other unit is copied, where [v] is the
    extracted name.  A plain column of the second serializer with an empty
    extracted name is returned as it was rendered. *)
Theorem serializeColumn_rewrites_occurrences {Err Env Expr : Type}
    (compile : Expr → M Err Env jsstring) col env text env1 suffix env2 :
  compile (column_expr col) env = Ok text env1 →
  alias_suffix compile col env1 = Ok suffix env2 →
  (Projection.serializeColumn compile col env =
     Ok (targets (fork_scan text) ++ suffix) env2 ∧
   sources (fork_scan text) = text ∧
   Forall fork_piece (fork_scan text) ∧ covers (fork_scan text) text) ∧
  (if alt_enabled col text
   then ProjectionAlt.serializeColumn compile col env =
          Ok (targets (alt_scan (alt_name col text) text) ++ suffix) env2 ∧
        sources (alt_scan (alt_name col text) text) = text ∧
        Forall (alt_piece (alt_name col text)) (alt_scan (alt_name col text) text) ∧
        covers (alt_scan (alt_name col text) text) text
   else ProjectionAlt.serializeColumn compile col env = Ok (text ++ suffix) env2).
Proof.
  intros H1 H2. split.
  - destruct (fork_scan_spec text) as (Hs & Ht & Hok & Hcov).
    split; [|done]. rewrite Ht. by eapply fork_serializeColumn.
  - pose proof (alt_serializeColumn compile col env text env1 suffix env2 H1 H2) as H.
    destruct (alt_enabled col text); [|done].
    destruct (alt_scan_spec (alt_name col text) text) as (Hs & Ht & Hok & Hcov).
    split; [|done]. by rewrite Ht.
Qed.

Lemma serializeColumn_rewrites_occurrences_witness :
  (Projection.serializeColumn (Err:=Empty_set) (Env:=()) ret
     (Aliased (js "n { id: this1.id, .id }") (AliasString (js "m"))) () =
     Ok (js "n { id: id(this1), id: id(this) }" ++ js " AS m") () ∧
   sources (fork_scan (js "n { id: this1.id, .id }")) = js "n { id: this1.id, .id }" ∧
   Forall fork_piece (fork_scan (js "n { id: this1.id, .id }")) ∧
   covers (fork_scan (js "n { id: this1.id, .id }")) (js "n { id: this1.id, .id }")) ∧
  (ProjectionAlt.serializeColumn (Err:=Empty_set) (Env:=()) ret
     (Aliased (js "n { id: this1.id, .id }") (AliasString (js "m"))) () =
     Ok (js "n { id: this1id: id(n), id: id(n) }" ++ js " AS m") () ∧
   sources (alt_scan (js "n") (js "n { id: this1.id, .id }")) =
     js "n { id: this1.id, .id }" ∧
   Forall (alt_piece (js "n")) (alt_scan (js "n") (js "n { id: this1.id, .id }")) ∧
   covers (alt_scan (js "n") (js "n { id: this1.id, .id }"))
     (js "n { id: this1.id, .id }")).
Proof.
  exact (serializeColumn_rewrites_occurrences (Err:=Empty_set) (Env:=()) ret
           (Aliased (js "n { id: this1.id, .id }") (AliasString (js "m"))) ()
           (js "n { id: this1.id, .id }") () (js " AS m") () eq_refl eq_refl).
Defined.

(** C1 as stated fails for the second serializer: a plain column that
    renders a map literal keeps its [.id] untouched. *)
Lemma serializeColumn_keeps_map_literal :
  let text := js "{ id: n.id }" in
  ProjectionAlt.serializeColumn (Err:=Empty_set) (Env:=()) ret (Plain text) () =
    Ok text () ∧
  text = js "{ id: n" ++ js ".id" ++ js " }" ∧
  ∀ ok, ¬ rewrites_all ok text text.
Proof.
  split; [by vm_compute|]. split; [by vm_compute|].
  intros ok H.
  apply (rewrites_all_paren _ _ _ (js "{ id: n") (js "id") (js " }")) in H;
    [|by left|by vm_compute].
  apply list_elem_of_In in H. vm_compute in H. intuition discriminate.
Qed.

(** C2.  The rewrite misfires on look-alike text.  A column that reads the
    property [identifier] of [this0] renders [this0.identifier]: the [.id]
    in it is followed by a letter, so it begins the property name
    [identifier] and is no access to [id].  Both serializers alter exactly
    this [.id], and leave the text before and after it as rendered: the
    output is the rendered text with the look-alike replaced by a call, which
    differs from the rendered text. *)
Theorem serializeColumn_misfires :
  ∃ text pre c post v,
    text = pre ++ js ".id" ++ c :: post ∧ is_alnum c = true ∧
    Projection.serializeColumn (Err:=Empty_set) (Env:=()) ret (Plain text) () =
      Ok (pre ++ js "id: id(this)" ++ c :: post) () ∧
    ProjectionAlt.serializeColumn (Err:=Empty_set) (Env:=()) ret (Plain text) () =
      Ok (pre ++ js "id: id(" ++ v ++ js ")" ++ c :: post) () ∧
    pre ++ js "id: id(this)" ++ c :: post ≠ text ∧
    pre ++ js "id: id(" ++ v ++ js ")" ++ c :: post ≠ text.
Proof.
  exists (js "this0.identifier"), (js "this0"), 101%N, (js "ntifier").
  exists (js "this0identifier").
  repeat split; by vm_compute.
Qed.

(** C3.  In [Projection.ts], every occurrence of [.id] in the rendered text
    of a column is replaced together with what precedes it in the shape
    [id: thisN.id] by [id: id(thisN)], and otherwise alone by the fixed text
    [id: id(this)]; the digits are kept only when the text has that shape.
    The same holds for [.labels]. *)
Theorem serializeColumn_fixed_this {Err Env Expr : Type}
    (compile : Expr → M Err Env jsstring) col env text env1 suffix env2 :
  compile (column_expr col) env = Ok text env1 →
  alias_suffix compile col env1 = Ok suffix env2 →
  ∃ ps, sources ps = text ∧
    Projection.serializeColumn compile col env = Ok (targets ps ++ suffix) env2 ∧
    ∀ f pre post, accessor f → text = pre ++ (js "." ++ f) ++ post →
      ∃ ps1 src arg ps2,
        ps = ps1 ++ Call f src arg :: ps2 ∧
        sources ps1 ++ src = pre ++ js "." ++ f ∧
        ((src = js "." ++ f ∧
          target (Call f src arg) = f ++ js ": " ++ f ++ js "(this)") ∨
         (∃ ws ds, Forall (λ c, is_space c = true) ws ∧
                   Forall (λ c, is_digit c = true) ds ∧ ds ≠ [] ∧
                   src = shape_text f ws ds ∧
                   target (Call f src arg) =
                     f ++ js ": " ++ f ++ js "(this" ++ ds ++ js ")")) ∧
        (¬ in_shape f pre →
         src = js "." ++ f ∧
         target (Call f src arg) = f ++ js ": " ++ f ++ js "(this)").
Proof.
  intros H1 H2. destruct (fork_rewrites text) as (ps & Hs & Ht & Hok & Hcov).
  exists ps. split; [done|]. split.
  { rewrite Ht. by eapply fork_serializeColumn. }
  intros f pre post Hf Htext.
  destruct (Hcov f pre post Hf Htext) as (ps1 & src & arg & ps2 & -> & E).
  exists ps1, src, arg, ps2. split; [done|]. split; [done|].
  apply Forall_app in Hok as [_ Hok]. apply Forall_cons in Hok as [Hp _].
  destruct Hp as [_ [[-> ->]|(ws & ds & Hws & Hds & Hne & -> & ->)]].
  - split; [by left|done].
  - assert (Htarget : target (Call f (shape_text f ws ds) (js "this" ++ ds)) =
                      f ++ js ": " ++ f ++ js "(this" ++ ds ++ js ")").
    { cbn [target]. unfold call. by rewrite <-!(assoc_L (++)). }
    split; [right; by exists ws, ds|].
    intros Hn. exfalso. apply Hn. by exists (sources ps1), ws, ds.
Qed.

Lemma serializeColumn_fixed_this_witness :
  ∃ ps, sources ps = js "n.id" ∧
    Projection.serializeColumn (Err:=Empty_set) (Env:=()) ret (Plain (js "n.id")) () =
      Ok (targets ps ++ []) () ∧
    ∀ f pre post, accessor f → js "n.id" = pre ++ (js "." ++ f) ++ post →
      ∃ ps1 src arg ps2,
        ps = ps1 ++ Call f src arg :: ps2 ∧
        sources ps1 ++ src = pre ++ js "." ++ f ∧
        ((src = js "." ++ f ∧
          target (Call f src arg) = f ++ js ": " ++ f ++ js "(this)") ∨
         (∃ ws ds, Forall (λ c, is_space c = true) ws ∧
                   Forall (λ c, is_digit c = true) ds ∧ ds ≠ [] ∧
                   src = shape_text f ws ds ∧
                   target (Call f src arg) =
                     f ++ js ": " ++ f ++ js "(this" ++ ds ++ js ")")) ∧
        (¬ in_shape f pre →
         src = js "." ++ f ∧
         target (Call f src arg) = f ++ js ": " ++ f ++ js "(this)").
Proof.
  exact (serializeColumn_fixed_this (Err:=Empty_set) (Env:=()) ret
           (Plain (js "n.id")) () (js "n.id") () [] () eq_refl eq_refl).
Defined.

End SerializerClaims.

(** ** Claims about the nodes *)

Section NodeClaims.
Import ProjectionClass.
Context {Err Env Expr : Type}.
Variable compile : Expr → M Err Env jsstring.

Lemma filterColumns_spec cs (this : Projection (Expr:=Expr)) :
  filterColumns cs this =
  (plain_columns cs, mkProjection (columns this) (isStar this || has_star cs)).
Proof.
  revert this. induction cs as [|[|c] cs IH]; intros [cols star]; simpl.
  - by rewrite orb_false_r.
  - rewrite IH. simpl. by rewrite orb_true_r.
  - rewrite IH. done.
Qed.

Lemma addColumns_spec cs (this : Projection (Expr:=Expr)) :
  addColumns cs this =
  mkProjection (columns this ++ plain_columns cs) (isStar this || has_star cs).
Proof. unfold addColumns. by rewrite filterColumns_spec. Qed.

Lemma plain_columns_app (cs1 cs2 : list (ColumnArg (Expr:=Expr))) :
  plain_columns (cs1 ++ cs2) = plain_columns cs1 ++ plain_columns cs2.
Proof. apply omap_app. Qed.

Lemma has_star_app (cs1 cs2 : list (ColumnArg (Expr:=Expr))) :
  has_star (cs1 ++ cs2) = has_star cs1 || has_star cs2.
Proof. apply existsb_app. Qed.

Lemma has_star_elem (cs : list (ColumnArg (Expr:=Expr))) :
  Star ∈ cs → has_star cs = true.
Proof.
  intros H. apply existsb_exists. exists Star. split; [|done].
  by apply list_elem_of_In.
Qed.

Lemma built_spec (cs0 : list (ColumnArg (Expr:=Expr))) batches :
  built cs0 batches =
  mkProjection (plain_columns (cs0 ++ concat batches))
               (has_star (cs0 ++ concat batches)).
Proof.
  unfold built, new. rewrite addColumns_spec. simpl.
  revert cs0. induction batches as [|cs batches IH]; intros cs0; simpl.
  - by rewrite app_nil_r.
  - rewrite addColumns_spec. simpl.
    rewrite <-plain_columns_app, <-has_star_app, IH. by rewrite <-(assoc_L (++)).
Qed.

Lemma getCypher_run (serializeColumn : ProjectionColumn → M Err Env jsstring)
    (this : Projection (Expr:=Expr)) env :
  ProjectionClass.getCypher serializeColumn (this, env) =
  match mapM serializeColumn (columns this) env with
  | Ok strs env' =>
      Ok (join (js ", ") (if isStar this then js "*" :: strs else strs)) (this, env')
  | Throw e => Throw e
  end.
Proof.
  unfold ProjectionClass.getCypher, bind, field, with_env, ret.
  by destruct (mapM serializeColumn (columns this) env).
Qed.

Lemma compileType_pure t (env : Env) :
  IsType.compileType (Err:=Err) t env = Ok (typeText t) env.
Proof.
  induction t as [b|t IH]; [done|]. cbn [IsType.compileType typeText].
  unfold bind. by rewrite IH.
Qed.

Lemma mapM_pure {A B} (f : A → M Err Env B) (g : A → B) l env :
  (∀ x env, f x env = Ok (g x) env) → mapM f l env = Ok (g <$> l) env.
Proof.
  intros Hf. induction l as [|x l IH]; [done|].
  cbn [mapM fmap list_fmap]. unfold bind at 1. rewrite Hf.
  unfold bind at 1. fold (mapM f). by rewrite IH.
Qed.

Lemma IsType_getCypher_run (this : IsType.IsType (Expr:=Expr)) env :
  IsType.getCypher compile (this, env) =
  match compile (IsType.expr this) env with
  | Ok exprCypher env1 =>
      Ok (exprCypher ++ js " " ++
          (if IsType.not this then js "IS NOT" else js "IS") ++ js " :: " ++
          join (js " | ")
            ((λ t, typeText t ++
                   (if IsType._notNull this then js " NOT NULL" else js ""))
               <$> IsType.type this))
         (this, env1)
  | Throw e => Throw e
  end.
Proof.
  unfold IsType.getCypher, bind, field, with_env, ret.
  destruct (compile (IsType.expr this) env) as [exprCypher env1|e]; [|done].
  rewrite (mapM_pure _ (λ t, typeText t ++
             (if IsType._notNull this then js " NOT NULL" else js ""))); [done|].
  intros t env'. by rewrite compileType_pure.
Qed.

End NodeClaims.

Section NodeTheorems.
Import ProjectionClass.

(** C9.  However many ["*"] entries the constructor and later [addColumns]
    calls receive, and wherever they stand, they are left out of the column
    list, and the rendering has one [*] column, the first, followed by the
    other columns in the order they were added, joined by [", "]. *)
Theorem getCypher_single_leading_star {Err Env Expr : Type}
    (serializeColumn : ProjectionColumn → M Err Env jsstring)
    (cs0 : list (ColumnArg (Expr:=Expr))) batches env strs env' :
  Star ∈ cs0 ++ concat batches →
  mapM serializeColumn (plain_columns (cs0 ++ concat batches)) env = Ok strs env' →
  columns (built cs0 batches) = plain_columns (cs0 ++ concat batches) ∧
  isStar (built cs0 batches) = true ∧
  ProjectionClass.getCypher serializeColumn (built cs0 batches, env) =
    Ok (join (js ", ") (js "*" :: strs)) (built cs0 batches, env').
Proof.
  intros Hstar Hcols. rewrite getCypher_run, built_spec. cbn [columns isStar].
  rewrite Hcols. by rewrite has_star_elem.
Qed.

Lemma getCypher_single_leading_star_witness :
  ProjectionClass.getCypher (Projection.serializeColumn (Err:=Empty_set) (Env:=()) ret)
    (built [Col (Plain (js "a")); Star] [[Star; Col (Plain (js "b"))]], ()) =
  Ok (js "*, a, b") (mkProjection [Plain (js "a"); Plain (js "b")] true, ()).
Proof.
  exact (proj2 (proj2 (getCypher_single_leading_star
           (Projection.serializeColumn (Err:=Empty_set) (Env:=()) ret)
           [Col (Plain (js "a")); Star] [[Star; Col (Plain (js "b"))]] ()
           [js "a"; js "b"] ()
           ltac:(vm_compute; apply list_elem_of_In; simpl; tauto) eq_refl))).
Defined.

(** Without any ["*"] entry there is no [*] column. *)
Lemma getCypher_no_star {Err Env Expr : Type}
    (serializeColumn : ProjectionColumn → M Err Env jsstring)
    (cs0 : list (ColumnArg (Expr:=Expr))) batches env strs env' :
  Star ∉ cs0 ++ concat batches →
  mapM serializeColumn (plain_columns (cs0 ++ concat batches)) env = Ok strs env' →
  ProjectionClass.getCypher serializeColumn (built cs0 batches, env) =
    Ok (join (js ", ") strs) (built cs0 batches, env').
Proof.
  intros Hstar Hcols. rewrite getCypher_run, built_spec. cbn [columns isStar].
  rewrite Hcols. destruct (has_star _) eqn:E; [|done].
  apply existsb_exists in E as ([|c] & Hin & E); [|done].
  by apply list_elem_of_In in Hin.
Qed.

(** C10.  [getCypher] of a type predicate is the compiled expression, [IS]
    or [IS NOT], [::] and the types joined by [ | ]; after [notNull()]
    every type of the union is followed by [ NOT NULL]. *)
Theorem IsType_getCypher_text {Err Env Expr : Type}
    (compile : Expr → M Err Env jsstring) (this : IsType.IsType) env exprCypher env1 :
  compile (IsType.expr this) env = Ok exprCypher env1 →
  IsType.getCypher compile (this, env) =
    Ok (exprCypher ++ js " " ++
        (if IsType.not this then js "IS NOT" else js "IS") ++ js " :: " ++
        join (js " | ")
          ((λ t, typeText t ++
                 (if IsType._notNull this then js " NOT NULL" else js ""))
             <$> IsType.type this))
       (this, env1) ∧
  IsType.getCypher compile (IsType.notNull this, env) =
    Ok (exprCypher ++ js " " ++
        (if IsType.not this then js "IS NOT" else js "IS") ++ js " :: " ++
        join (js " | ") ((λ t, typeText t ++ js " NOT NULL") <$> IsType.type this))
       (IsType.notNull this, env1).
Proof.
  intros H. rewrite !IsType_getCypher_run. cbn [IsType.notNull IsType.expr
    IsType.not IsType._notNull IsType.type]. by rewrite H.
Qed.

Lemma IsType_getCypher_text_witness :
  IsType.getCypher (Err:=Empty_set) (Env:=()) ret
    (IsType.isNotType (js "val")
       [IsType.Base IsType.INTEGER; IsType.list (IsType.Base IsType.STRING)], ()) =
    Ok (js "val IS NOT :: INTEGER | LIST<STRING>")
       (IsType.isNotType (js "val")
          [IsType.Base IsType.INTEGER; IsType.list (IsType.Base IsType.STRING)], ()) ∧
  IsType.getCypher (Err:=Empty_set) (Env:=()) ret
    (IsType.notNull (IsType.isNotType (js "val")
       [IsType.Base IsType.INTEGER; IsType.list (IsType.Base IsType.STRING)]), ()) =
    Ok (js "val IS NOT :: INTEGER NOT NULL | LIST<STRING> NOT NULL")
       (IsType.notNull (IsType.isNotType (js "val")
          [IsType.Base IsType.INTEGER; IsType.list (IsType.Base IsType.STRING)]), ()).
Proof.
  exact (IsType_getCypher_text (Err:=Empty_set) (Env:=()) ret
           (IsType.isNotType (js "val")
              [IsType.Base IsType.INTEGER; IsType.list (IsType.Base IsType.STRING)])
           () (js "val") () eq_refl).
Defined.

(** C4.  [getCypher] of a [Projection] (either serializer) and of an
    [IsType] returns with every field of the node as it was, whatever the
    environment; so a second rendering, against another environment, is the
    rendering of the node as it was built. *)
Theorem getCypher_leaves_node_unchanged {Err Env Expr : Type}
    (compile : Expr → M Err Env jsstring) :
  (∀ (this : Projection) env env2,
     match Projection.getCypher compile (this, env) with
     | Ok _ (this', _) =>
         this' = this ∧
         Projection.getCypher compile (this', env2) =
         Projection.getCypher compile (this, env2)
     | Throw _ => True
     end) ∧
  (∀ (this : Projection) env env2,
     match ProjectionAlt.getCypher compile (this, env) with
     | Ok _ (this', _) =>
         this' = this ∧
         ProjectionAlt.getCypher compile (this', env2) =
         ProjectionAlt.getCypher compile (this, env2)
     | Throw _ => True
     end) ∧
  (∀ (this : IsType.IsType) env env2,
     match IsType.getCypher compile (this, env) with
     | Ok _ (this', _) =>
         this' = this ∧
         IsType.getCypher compile (this', env2) = IsType.getCypher compile (this, env2)
     | Throw _ => True
     end).
Proof.
  repeat split; intros this env env2.
  - unfold Projection.getCypher. rewrite getCypher_run.
    by destruct (mapM _ (columns this) env).
  - unfold ProjectionAlt.getCypher. rewrite getCypher_run.
    by destruct (mapM _ (columns this) env).
  - rewrite IsType_getCypher_run. by destruct (compile (IsType.expr this) env).
Qed.

End NodeTheorems.

(** ** The naming engine *)

Section MonadFacts.
Context {Err S : Type}.

Lemma preserves_ret {A} (P : S → Prop) (a : A) : preserves P (ret (Err:=Err) a).
Proof. intros s a' s' HP [= _ <-]. done. Qed.

Lemma preserves_throw {A} (P : S → Prop) (e : Err) : preserves P (throw (A:=A) e).
Proof. by intros s a' s' HP. Qed.

Lemma preserves_bind {A B} P (c : M Err S A) (f : A → M Err S B) :
  preserves P c → (∀ a, preserves P (f a)) → preserves P (bind c f).
Proof.
  intros Hc Hf s b s' HP. unfold bind.
  destruct (c s) as [a s1|e] eqn:E; [|done].
  intros H. eapply Hf; [|exact H]. by eapply Hc.
Qed.

Lemma preserves_mapM {A B} P (f : A → M Err S B) l :
  Forall (λ x, preserves P (f x)) l → preserves P (mapM f l).
Proof.
  induction 1 as [|x l Hx Hl IH]; [apply preserves_ret|].
  cbn [mapM]. apply preserves_bind; [done|]. intros y.
  apply preserves_bind; [exact IH|]. intros ys. apply preserves_ret.
Qed.

Lemma preserves_if {A} P (b : bool) (c1 c2 : M Err S A) :
  preserves P c1 → preserves P c2 → preserves P (if b then c1 else c2).
Proof. by destruct b. Qed.

End MonadFacts.

Section EngineFacts.
Import Engine.
Context {value : Type} `{EqDecision value}.
Variable explicit : nat → option jsstring.
Variable payload : nat → value.

Local Abbreviation Env := (Environment value).
Local Abbreviation nameOf := (Engine.nameOf explicit).
Local Abbreviation recordParameter := (Engine.recordParameter explicit).
Local Abbreviation render := (Engine.render explicit payload).
Local Abbreviation wf := (wf (value:=value)).

(** Whatever the two operations of the environment keep, rendering keeps. *)
Section Preservation.
Variable P : Env → Prop.
Hypothesis P_nameOf : ∀ v, preserves P (nameOf v).
Hypothesis P_recordParameter : ∀ p val, preserves P (recordParameter p val).

Lemma renderProperties_preserves ps :
  preserves P (Engine.renderProperties explicit payload ps).
Proof.
  destruct ps as [kvs|]; [|apply preserves_ret]. cbn [renderProperties].
  apply preserves_bind; [|intros; apply preserves_ret].
  apply preserves_mapM, Forall_forall. intros [k [p|text]] _; unfold renderProperty; simpl.
  - apply preserves_bind; [done|]. intros; apply preserves_ret.
  - apply preserves_ret.
Qed.

Lemma renderNodeElement_preserves seen n :
  preserves P (Engine.renderNodeElement explicit payload seen n).
Proof.
  unfold renderNodeElement. apply preserves_bind.
  { apply preserves_if; [apply preserves_ret|done]. }
  intros name. apply preserves_bind; [|intros; apply preserves_ret].
  apply preserves_if; [apply preserves_ret|apply renderProperties_preserves].
Qed.

Lemma renderRelationshipElement_preserves seen r :
  preserves P (Engine.renderRelationshipElement explicit payload seen r).
Proof.
  unfold renderRelationshipElement. apply preserves_bind.
  { apply preserves_if; [apply preserves_ret|done]. }
  intros name. apply preserves_bind; [|intros; apply preserves_ret].
  apply preserves_if; [apply preserves_ret|apply renderProperties_preserves].
Qed.

Lemma renderSteps_preserves l : ∀ seen,
  preserves P (Engine.renderSteps explicit payload seen l).
Proof.
  induction l as [|[r n] l IH]; intros seen; cbn [renderSteps];
    [apply preserves_ret|].
  apply preserves_bind; [apply renderRelationshipElement_preserves|]. intros rs.
  apply preserves_bind; [apply renderNodeElement_preserves|]. intros ns.
  apply preserves_bind; [apply IH|]. intros; apply preserves_ret.
Qed.

Lemma renderPattern_preserves p :
  preserves P (Engine.renderPattern explicit payload p).
Proof.
  unfold renderPattern. destruct (dangling p); [apply preserves_throw|].
  apply preserves_bind; [apply renderNodeElement_preserves|]. intros ns.
  apply preserves_bind; [apply renderSteps_preserves|]. intros; apply preserves_ret.
Qed.

Lemma render_preserves t : preserves P (render t).
Proof.
  induction t as [v|p|text|p|assemble children IH] using Node_nested_ind;
    cbn [Engine.render].
  - done.
  - apply preserves_bind; [done|]. intros; apply preserves_ret.
  - apply preserves_ret.
  - apply renderPattern_preserves.
  - apply preserves_bind; [|intros; apply preserves_ret].
    by apply preserves_mapM.
Qed.

End Preservation.

Section Errors.
Local Abbreviation throws_only := (throws_only (value:=value)).
Variable Q : Error → Prop.
Hypothesis Q_collision : Q NameCollisionError.
Hypothesis Q_ambiguous : Q AmbiguousParameterBindingError.

Lemma throws_ret {A} (a : A) : throws_only Q (ret (S:=Env) a).
Proof. by intros env e. Qed.

Lemma throws_bind {A B} (c : M Error Env A) (f : A → M Error Env B) :
  throws_only Q c → (∀ a, throws_only Q (f a)) → throws_only Q (bind c f).
Proof.
  intros Hc Hf env e. unfold bind. destruct (c env) as [a env1|e'] eqn:E.
  - apply Hf.
  - intros [= <-]. by eapply Hc.
Qed.

Lemma throws_mapM {A B} (f : A → M Error Env B) l :
  (∀ x, throws_only Q (f x)) → throws_only Q (mapM f l).
Proof.
  intros Hf. induction l as [|x l IH]; [apply throws_ret|]. cbn [mapM].
  apply throws_bind; [done|]. intros y.
  apply throws_bind; [exact IH|]. intros; apply throws_ret.
Qed.

Lemma throws_if {A} (b : bool) (c1 c2 : M Error Env A) :
  throws_only Q c1 → throws_only Q c2 → throws_only Q (if b then c1 else c2).
Proof. by destruct b. Qed.

Lemma allocate_throws k i : throws_only Q (Engine.allocate explicit k i).
Proof.
  intros env e. unfold allocate.
  destruct (explicit i); destruct (collides _ _ _); by intros [= <-].
Qed.

Lemma nameOf_throws v : throws_only Q (nameOf v).
Proof.
  intros env e. unfold Engine.nameOf. destruct (variables env !! v); [done|].
  destruct (allocate explicit VariableClass v env) eqn:E; [done|].
  intros [= <-]. by eapply allocate_throws.
Qed.

Lemma recordParameter_throws p val : throws_only Q (recordParameter p val).
Proof.
  intros env e. unfold Engine.recordParameter.
  destruct (parameters env !! p) as [[name val']|].
  - destruct (decide (val' = val)); [done|]. by intros [= <-].
  - destruct (allocate explicit ParameterClass p env) eqn:E; [done|].
    intros [= <-]. by eapply allocate_throws.
Qed.

Lemma renderProperties_throws ps :
  throws_only Q (Engine.renderProperties explicit payload ps).
Proof.
  destruct ps as [kvs|]; [|apply throws_ret]. cbn [renderProperties].
  apply throws_bind; [|intros; apply throws_ret].
  apply throws_mapM. intros [k [p|text]]; unfold renderProperty; simpl.
  - apply throws_bind; [apply recordParameter_throws|]. intros; apply throws_ret.
  - apply throws_ret.
Qed.

Lemma renderNodeElement_throws seen n :
  throws_only Q (Engine.renderNodeElement explicit payload seen n).
Proof.
  unfold renderNodeElement. apply throws_bind.
  { apply throws_if; [apply throws_ret|apply nameOf_throws]. }
  intros name. apply throws_bind; [|intros; apply throws_ret].
  apply throws_if; [apply throws_ret|apply renderProperties_throws].
Qed.

Lemma renderRelationshipElement_throws seen r :
  throws_only Q (Engine.renderRelationshipElement explicit payload seen r).
Proof.
  unfold renderRelationshipElement. apply throws_bind.
  { apply throws_if; [apply throws_ret|apply nameOf_throws]. }
  intros name. apply throws_bind; [|intros; apply throws_ret].
  apply throws_if; [apply throws_ret|apply renderProperties_throws].
Qed.

Lemma renderSteps_throws l : ∀ seen,
  throws_only Q (Engine.renderSteps explicit payload seen l).
Proof.
  induction l as [|[r n] l IH]; intros seen; cbn [renderSteps]; [apply throws_ret|].
  apply throws_bind; [apply renderRelationshipElement_throws|]. intros rs.
  apply throws_bind; [apply renderNodeElement_throws|]. intros ns.
  apply throws_bind; [apply IH|]. intros; apply throws_ret.
Qed.

End Errors.

(** *** The invariant of an environment *)

Lemma wf_fresh pfx : wf explicit pfx (fresh pfx).
Proof.
  split; [done|..]; intros i; unfold named, fresh; simpl.
  - intros j n [Hi|[val Hi]]; by rewrite lookup_empty in Hi.
  - intros n [Hi|[val Hi]]; by rewrite lookup_empty in Hi.
Qed.

Lemma collides_false (env : Env) i name :
  collides env i name = false → ∀ j, named env j name → j = i.
Proof.
  unfold collides. intros [H1 H2]%orb_false_elim j Hj.
  apply bool_decide_eq_false in H1, H2.
  destruct (decide (j = i)) as [|Hne]; [done|]. exfalso.
  destruct Hj as [Hj|[val Hj]].
  - apply H1. by exists j, name.
  - apply H2. by exists j, (name, val).
Qed.

Lemma allocate_inv k i (env : Env) name (env' : Env) :
  Engine.allocate explicit k i env = Ok name env' →
  collides env i name = false ∧
  prefix env' = prefix env ∧ variables env' = variables env ∧
  parameters env' = parameters env ∧
  match explicit i with
  | Some e => name = e
  | None => prefix env `prefix_of` name
  end.
Proof.
  unfold allocate. destruct (explicit i) as [e|].
  - destruct (collides env i e) eqn:E; [done|]. by intros [= <- <-].
  - destruct (collides env i _) eqn:E; [done|]. intros [= <- <-].
    repeat split; [done|by destruct k..|]. by eexists.
Qed.

Lemma nameOf_wf pfx v : preserves (wf explicit pfx) (nameOf v).
Proof.
  intros env name env' [Hp Hu Hr]. unfold Engine.nameOf.
  destruct (variables env !! v) as [n|] eqn:Ev; [by intros [= <- <-]|].
  destruct (allocate explicit VariableClass v env) as [n env1|] eqn:E; [|done].
  intros Heq. injection Heq as Hname Henv. subst name env'.
  apply allocate_inv in E as (Hc & Hp1 & Hv1 & Hq1 & Hn).
  pose proof (collides_false _ _ _ Hc) as Hcol.
  assert (Hnamed : ∀ i m, named (mkEnvironment (prefix env1) (<[v:=n]> (variables env1))
              (parameters env1) (variableCounter env1) (parameterCounter env1)) i m →
            (i = v ∧ m = n) ∨ named env i m).
  { intros i m [Hi|[val Hi]]; simpl in Hi.
    - rewrite Hv1 in Hi. apply lookup_insert_Some in Hi as [[<- <-]|[_ Hi]]; [by left|].
      right. by left.
    - rewrite Hq1 in Hi. right. right. by exists val. }
  split; simpl.
  - congruence.
  - intros i j m Hi Hj. apply Hnamed in Hi, Hj.
    destruct Hi as [[Hi1 Hi2]|Hi], Hj as [[Hj1 Hj2]|Hj]; subst;
      [done|symmetry; by apply Hcol|by apply Hcol|by eapply Hu].
  - intros i m Hi. apply Hnamed in Hi as [[-> ->]|Hi]; [|by apply Hr].
    rewrite <-Hp. by destruct (explicit v).
Qed.

Lemma recordParameter_wf pfx p val : preserves (wf explicit pfx) (recordParameter p val).
Proof.
  intros env name env' [Hp Hu Hr]. unfold Engine.recordParameter.
  destruct (parameters env !! p) as [[n val']|] eqn:Ev.
  { destruct (decide (val' = val)); [|done]. by intros [= <- <-]. }
  destruct (allocate explicit ParameterClass p env) as [n env1|] eqn:E; [|done].
  intros Heq. injection Heq as Hname Henv. subst name env'.
  apply allocate_inv in E as (Hc & Hp1 & Hv1 & Hq1 & Hn).
  pose proof (collides_false _ _ _ Hc) as Hcol.
  assert (Hnamed : ∀ i m, named (mkEnvironment (prefix env1) (variables env1)
              (<[p:=(n, val)]> (parameters env1)) (variableCounter env1)
              (parameterCounter env1)) i m →
            (i = p ∧ m = n) ∨ named env i m).
  { intros i m [Hi|[val' Hi]]; simpl in Hi.
    - rewrite Hv1 in Hi. right. by left.
    - rewrite Hq1 in Hi. apply lookup_insert_Some in Hi as [[<- [= <- <-]]|[_ Hi]];
        [by left|]. right. right. by exists val'. }
  split; simpl.
  - congruence.
  - intros i j m Hi Hj. apply Hnamed in Hi, Hj.
    destruct Hi as [[Hi1 Hi2]|Hi], Hj as [[Hj1 Hj2]|Hj]; subst;
      [done|symmetry; by apply Hcol|by apply Hcol|by eapply Hu].
  - intros i m Hi. apply Hnamed in Hi as [[-> ->]|Hi]; [|by apply Hr].
    rewrite <-Hp. by destruct (explicit p).
Qed.

Lemma render_wf pfx t : preserves (wf explicit pfx) (render t).
Proof.
  apply render_preserves; [apply nameOf_wf|apply recordParameter_wf].
Qed.

End EngineFacts.

(** *** The text of a tree is its layout under the final names *)

Section LayoutFacts.
Import Engine.
Context {value : Type} `{EqDecision value}.
Variable explicit : nat → option jsstring.
Variable payload : nat → value.

Local Abbreviation Env := (Environment value).
Local Abbreviation extends := (extends (value:=value)).
Local Abbreviation lays := (lays (value:=value)).

Lemma extends_refl (env : Env) : extends env env.
Proof. done. Qed.

Lemma extends_trans (env1 env2 env3 : Env) :
  extends env1 env2 → extends env2 env3 → extends env1 env3.
Proof. intros [? ?] [? ?]. split; by etrans. Qed.

Lemma lays_ret {A} (a : A) : lays (ret a) (λ _, Some a).
Proof. intros env a' env1 [= <- <-]. split; [apply extends_refl|done]. Qed.

Lemma lays_throw {A} e (L : Env → option A) : lays (throw e) L.
Proof. by intros env a env1. Qed.

Lemma lays_bind {A B} (c : M Error Env A) (f : A → M Error Env B) L G :
  lays c L → (∀ a, lays (f a) (G a)) →
  lays (bind c f) (λ env, a ← L env; G a env).
Proof.
  intros Hc Hf env b env2. unfold bind.
  destruct (c env) as [a env1|e] eqn:E; [|done]. intros H.
  destruct (Hc _ _ _ E) as [X1 L1]. destruct (Hf a _ _ _ H) as [X2 L2].
  split; [by eapply extends_trans|]. intros env3 X3.
  rewrite (L1 env3) by by eapply extends_trans. by apply L2.
Qed.

Lemma lays_if {A} (b : bool) (c1 c2 : M Error Env A) L1 L2 :
  lays c1 L1 → lays c2 L2 →
  lays (if b then c1 else c2) (λ env, if b then L1 env else L2 env).
Proof. by destruct b. Qed.

Lemma lays_mapM {A} (f : A → M Error Env jsstring) (F : Env → A → option jsstring) l :
  Forall (λ x, lays (f x) (λ env, F env x)) l →
  lays (mapM f l) (λ env, layoutList (F env) l).
Proof.
  induction 1 as [|x l Hx Hl IH]; [apply lays_ret|].
  change (mapM f (x :: l))
    with (bind (f x) (λ y, bind (mapM f l) (λ ys, ret (y :: ys)))).
  apply (lays_bind _ _ (λ env, F env x)
           (λ y env, ys ← layoutList (F env) l; Some (y :: ys))); [done|].
  intros y. apply (lays_bind _ _ (λ env, layoutList (F env) l)
                     (λ ys _, Some (y :: ys))); [done|].
  intros ys. apply lays_ret.
Qed.

Lemma lays_nameOf v : lays (nameOf explicit v) (λ env, variableName env v).
Proof.
  intros env name env1. unfold nameOf, variableName.
  destruct (variables env !! v) as [n|] eqn:Ev.
  { intros [= <- <-]. split; [apply extends_refl|].
    intros env2 [X _]. by eapply lookup_weaken. }
  destruct (allocate explicit VariableClass v env) as [n env'|] eqn:E; [|done].
  intros [= <- <-]. apply allocate_inv in E as (_ & _ & Hv & Hq & _).
  split.
  - split; simpl; [|by rewrite Hq]. rewrite Hv. by apply insert_subseteq.
  - intros env2 [X _]. eapply lookup_weaken; [|exact X]. simpl.
    by rewrite lookup_insert_eq.
Qed.

Lemma lays_recordParameter p val :
  lays (recordParameter explicit p val) (λ env, parameterName env p).
Proof.
  intros env name env1. unfold recordParameter, parameterName.
  destruct (parameters env !! p) as [[n val']|] eqn:Ev.
  { destruct (decide (val' = val)); [|done]. intros [= <- <-].
    split; [apply extends_refl|].
    intros env2 [_ X]. by rewrite (lookup_weaken _ _ _ _ Ev X). }
  destruct (allocate explicit ParameterClass p env) as [n env'|] eqn:E; [|done].
  intros [= <- <-]. apply allocate_inv in E as (_ & _ & Hv & Hq & _).
  split.
  - split; simpl; [by rewrite Hv|]. rewrite Hq. by apply insert_subseteq.
  - intros env2 [_ X].
    erewrite (lookup_weaken _ _ p (n, val)); [done| |exact X]. simpl.
    by rewrite lookup_insert_eq.
Qed.

Lemma renderProperties_lays ps :
  lays (renderProperties explicit payload ps) (λ env, layoutProperties env ps).
Proof.
  destruct ps as [kvs|]; [|apply lays_ret].
  cbn [renderProperties layoutProperties].
  apply (lays_bind _ _ (λ env, layoutList (layoutProperty env) kvs)
           (λ strs _, Some (js " {" ++ join (js ", ") strs ++ js "}")));
    [|intros; apply lays_ret].
  apply (lays_mapM _ (λ env, layoutProperty env)), Forall_forall.
  intros [k [p|text]] _; unfold renderProperty, layoutProperty; cbn [fst snd].
  - apply (lays_bind _ _ (λ env, parameterName env p)
             (λ name _, Some (k ++ js ": $" ++ name)));
      [apply lays_recordParameter|intros; apply lays_ret].
  - apply lays_ret.
Qed.

Lemma renderNodeElement_lays seen n :
  lays (renderNodeElement explicit payload seen n)
       (λ env, layoutNodeElement env seen n).
Proof.
  unfold renderNodeElement, layoutNodeElement.
  apply (lays_bind _ _
           (λ env, if nodeWithoutVariable n then Some []
                   else variableName env (nodeVariable n))
           (λ name env,
              props ← (if bool_decide (nodeVariable n ∈ seen) then Some []
                       else layoutProperties env (nodeProperties n));
              Some (js "(" ++ name ++
                    (if bool_decide (nodeVariable n ∈ seen) || nodeWithoutLabels n
                     then [] else concat ((λ l, js ":" ++ l) <$> nodeLabels n)) ++
                    props ++ js ")"))).
  { destruct (nodeWithoutVariable n); [apply lays_ret|apply lays_nameOf]. }
  intros name.
  apply (lays_bind _ _
           (λ env, if bool_decide (nodeVariable n ∈ seen) then Some []
                   else layoutProperties env (nodeProperties n))
           (λ props _,
              Some (js "(" ++ name ++
                    (if bool_decide (nodeVariable n ∈ seen) || nodeWithoutLabels n
                     then [] else concat ((λ l, js ":" ++ l) <$> nodeLabels n)) ++
                    props ++ js ")"))).
  { destruct (bool_decide _); [apply lays_ret|apply renderProperties_lays]. }
  intros props. apply lays_ret.
Qed.

Lemma renderRelationshipElement_lays seen r :
  lays (renderRelationshipElement explicit payload seen r)
       (λ env, layoutRelationshipElement env seen r).
Proof.
  unfold renderRelationshipElement, layoutRelationshipElement.
  set (bare := bool_decide (relVariable r ∈ seen)).
  set (type := if bare || relWithoutType r then []
               else from_option (λ t, js ":" ++ t) [] (relType r)).
  set (len := if bare then [] else renderLength (relLength r)).
  set (arrow := λ name props : jsstring,
         match relDirection r with
         | Left => js "<-" ++ (js "[" ++ name ++ type ++ len ++ props ++ js "]") ++ js "-"
         | Right => js "-" ++ (js "[" ++ name ++ type ++ len ++ props ++ js "]") ++ js "->"
         | Undirected =>
             js "-" ++ (js "[" ++ name ++ type ++ len ++ props ++ js "]") ++ js "-"
         end).
  apply (lays_bind _ _
           (λ env, if relWithoutVariable r then Some []
                   else variableName env (relVariable r))
           (λ name env,
              props ← (if bare then Some [] else layoutProperties env (relProperties r));
              Some (arrow name props))).
  { destruct (relWithoutVariable r); [apply lays_ret|apply lays_nameOf]. }
  intros name.
  apply (lays_bind _ _
           (λ env, if bare then Some [] else layoutProperties env (relProperties r))
           (λ props _, Some (arrow name props))).
  { destruct bare; [apply lays_ret|apply renderProperties_lays]. }
  intros props. apply lays_ret.
Qed.

Lemma renderSteps_lays l : ∀ seen,
  lays (renderSteps explicit payload seen l) (λ env, layoutSteps env seen l).
Proof.
  induction l as [|[r n] l IH]; intros seen; cbn [renderSteps layoutSteps];
    [apply lays_ret|].
  apply (lays_bind _ _ (λ env, layoutRelationshipElement env seen r)
           (λ rs env,
              ns ← layoutNodeElement env ({[relVariable r]} ∪ seen) n;
              rest ← layoutSteps env ({[nodeVariable n]} ∪ ({[relVariable r]} ∪ seen)) l;
              Some (rs ++ ns ++ rest))); [apply renderRelationshipElement_lays|].
  intros rs.
  apply (lays_bind _ _ (λ env, layoutNodeElement env ({[relVariable r]} ∪ seen) n)
           (λ ns env,
              rest ← layoutSteps env ({[nodeVariable n]} ∪ ({[relVariable r]} ∪ seen)) l;
              Some (rs ++ ns ++ rest))); [apply renderNodeElement_lays|].
  intros ns.
  apply (lays_bind _ _
           (λ env, layoutSteps env ({[nodeVariable n]} ∪ ({[relVariable r]} ∪ seen)) l)
           (λ rest _, Some (rs ++ ns ++ rest))); [apply IH|].
  intros rest. apply lays_ret.
Qed.

Lemma renderPattern_lays p :
  lays (renderPattern explicit payload p) (λ env, layoutPattern env p).
Proof.
  unfold renderPattern, layoutPattern. destruct (dangling p); [apply lays_throw|].
  apply (lays_bind _ _ (λ env, layoutNodeElement env ∅ (first p))
           (λ ns env,
              rest ← layoutSteps env {[nodeVariable (first p)]} (steps p);
              Some (ns ++ rest))); [apply renderNodeElement_lays|].
  intros ns.
  apply (lays_bind _ _ (λ env, layoutSteps env {[nodeVariable (first p)]} (steps p))
           (λ rest _, Some (ns ++ rest))); [apply renderSteps_lays|].
  intros rest. apply lays_ret.
Qed.

Lemma render_lays t : lays (render explicit payload t) (λ env, layout env t).
Proof.
  induction t as [v|p|text|p|assemble children IH] using Node_nested_ind;
    cbn [render layout].
  - apply lays_nameOf.
  - apply (lays_bind _ _ (λ env, parameterName env p) (λ name _, Some (js "$" ++ name)));
      [apply lays_recordParameter|intros; apply lays_ret].
  - apply lays_ret.
  - apply renderPattern_lays.
  - apply (lays_bind _ _ (λ env, layoutList (layout env) children)
             (λ strs _, Some (assemble strs))); [|intros; apply lays_ret].
    by apply (lays_mapM _ (λ env, layout env)).
Qed.

(** The rendered text is the layout of the tree under the names of the
    environment that rendering leaves. *)
Lemma render_layout t (env : Env) txt (env1 : Env) :
  render explicit payload t env = Ok txt env1 → layout env1 t = Some txt.
Proof.
  intros H. destruct (render_lays t env txt env1 H) as [_ L].
  apply L, extends_refl.
Qed.

Lemma addExtra_lookup (extra : list (jsstring * value)) :
  ∀ (m m' : gmap jsstring value) name val,
    addExtra extra m = inr m' → m' !! name = Some val →
    m !! name = Some val ∨ (name, val) ∈ extra.
Proof.
  induction extra as [|[k x] extra IH]; intros m m' name val; cbn [addExtra].
  { intros [= <-]. by left. }
  destruct (m !! k) eqn:Ek; [done|]. intros H Hl.
  destruct (IH _ _ _ _ H Hl) as [Hm|Hin]; [|right; by right].
  apply lookup_insert_Some in Hm as [[<- <-]|[_ Hm]]; [right; by left|by left].
Qed.

Lemma finalize_lookup (extra : list (jsstring * value)) (env : Env)
    (m : gmap jsstring value) name val :
  finalize extra env = inr m → m !! name = Some val →
  (∃ p, parameters env !! p = Some (name, val)) ∨ (name, val) ∈ extra.
Proof.
  unfold finalize. intros H Hl.
  destruct (addExtra_lookup _ _ _ _ _ H Hl) as [Hm|Hin]; [left|by right].
  apply elem_of_list_to_map_2 in Hm. apply list_elem_of_fmap in Hm as ([p e] & He & Hin).
  apply elem_of_map_to_list in Hin. exists p. simpl in He. by rewrite He.
Qed.

End LayoutFacts.

(** *** A complete tree of anonymous identities always renders *)

Section AnonymousFacts.
Import Engine.
Context {value : Type} `{EqDecision value}.
Variable explicit : nat → option jsstring.
Variable payload : nat → value.
Hypothesis anonymous : ∀ i, explicit i = None.
Variable pfx : jsstring.

Local Abbreviation Env := (Environment value).
Local Abbreviation good := (generated payload pfx).
Local Abbreviation succeeds := (succeeds (value:=value)).

Lemma js_inj s1 s2 : js s1 = js s2 → s1 = s2.
Proof.
  unfold js. intros H.
  rewrite <-(String.string_of_list_ascii_of_string s1),
          <-(String.string_of_list_ascii_of_string s2).
  f_equal. revert H. generalize (String.list_ascii_of_string s1) as l1.
  generalize (String.list_ascii_of_string s2) as l2.
  intros l2 l1. revert l2. induction l1 as [|a l1 IH]; intros [|b l2] H; simplify_eq/=;
    [done|].
  f_equal; [|by apply IH].
  rewrite <-(Ascii.ascii_N_embedding a), <-(Ascii.ascii_N_embedding b). by f_equal.
Qed.

Lemma decimal_inj a b : decimal a = decimal b → a = b.
Proof. intros H. apply js_inj in H. by apply (inj pretty) in H. Qed.

Lemma generated_fresh : good (fresh pfx).
Proof.
  split; [done|..]; unfold fresh; simpl.
  - intros v n H. by rewrite lookup_empty in H.
  - intros p n val H. by rewrite lookup_empty in H.
Qed.

(** The next generated name is held by no identity. *)
Lemma generated_no_collision (env : Env) k i :
  good env →
  collides env i (prefix env ++ classTag k ++ decimal (counter k env)) = false.
Proof.
  intros [Hp Hv Hq]. unfold collides. apply orb_false_intro; apply bool_decide_eq_false.
  - intros (j & n & Hj & _ & ->). destruct (Hv _ _ Hj) as (k' & Hlt & E).
    rewrite Hp in E. apply app_inv_head in E.
    destruct k; [|by vm_compute in E].
    apply app_inv_head, decimal_inj in E. simpl in E. lia.
  - intros (j & [n val] & Hj & _ & E0). simpl in E0. subst n.
    destruct (Hq _ _ _ Hj) as (_ & k' & Hlt & E).
    rewrite Hp in E. apply app_inv_head in E.
    destruct k; [by vm_compute in E|].
    apply app_inv_head, decimal_inj in E. simpl in E. lia.
Qed.

Lemma succeeds_ret {A} P (a : A) : succeeds P (ret a).
Proof. intros env HP. by exists a, env. Qed.

Lemma succeeds_bind {A B} P (c : M Error Env A) (f : A → M Error Env B) :
  succeeds P c → (∀ a, succeeds P (f a)) → succeeds P (bind c f).
Proof.
  intros Hc Hf env HP. destruct (Hc env HP) as (a & env1 & E & HP1).
  destruct (Hf a env1 HP1) as (b & env2 & E2 & HP2).
  exists b, env2. unfold bind. by rewrite E.
Qed.

Lemma succeeds_mapM {A B} P (f : A → M Error Env B) l :
  Forall (λ x, succeeds P (f x)) l → succeeds P (mapM f l).
Proof.
  induction 1 as [|x l Hx Hl IH]; [apply succeeds_ret|].
  change (mapM f (x :: l))
    with (bind (f x) (λ y, bind (mapM f l) (λ ys, ret (y :: ys)))).
  apply succeeds_bind; [done|]. intros y.
  apply succeeds_bind; [exact IH|]. intros ys. apply succeeds_ret.
Qed.

Lemma succeeds_if {A} P (b : bool) (c1 c2 : M Error Env A) :
  succeeds P c1 → succeeds P c2 → succeeds P (if b then c1 else c2).
Proof. by destruct b. Qed.

Lemma nameOf_succeeds v : succeeds good (nameOf explicit v).
Proof.
  intros env Hg. unfold nameOf.
  destruct (variables env !! v) as [n|] eqn:Ev; [by exists n, env|].
  unfold allocate. rewrite anonymous.
  rewrite (generated_no_collision env VariableClass v Hg).
  destruct Hg as [Hp Hv Hq]. eexists _, _. split; [done|].
  split; simpl.
  - done.
  - intros w n Hw. apply lookup_insert_Some in Hw as [[_ <-]|[_ Hw]].
    + exists (variableCounter env). split; [lia|]. by rewrite Hp.
    + destruct (Hv _ _ Hw) as (k & Hlt & ->). exists k. split; [lia|done].
  - done.
Qed.

Lemma recordParameter_succeeds p :
  succeeds good (recordParameter explicit p (payload p)).
Proof.
  intros env Hg. unfold recordParameter.
  destruct (parameters env !! p) as [[n val]|] eqn:Ev.
  { destruct Hg as [Hp Hv Hq]. destruct (Hq _ _ _ Ev) as [-> _].
    rewrite decide_True by done. by exists n, env. }
  unfold allocate. rewrite anonymous.
  rewrite (generated_no_collision env ParameterClass p Hg).
  destruct Hg as [Hp Hv Hq]. eexists _, _. split; [done|].
  split; simpl.
  - done.
  - done.
  - intros q n val Hw. apply lookup_insert_Some in Hw as [[<- [= <- <-]]|[_ Hw]].
    + split; [done|]. exists (parameterCounter env). split; [lia|]. by rewrite Hp.
    + destruct (Hq _ _ _ Hw) as (Hval & k & Hlt & ->).
      split; [done|]. exists k. split; [lia|done].
Qed.

Lemma renderProperties_succeeds ps :
  succeeds good (renderProperties explicit payload ps).
Proof.
  destruct ps as [kvs|]; [|apply succeeds_ret]. cbn [renderProperties].
  apply succeeds_bind; [|intros; apply succeeds_ret].
  apply succeeds_mapM, Forall_forall. intros [k [p|text]] _; unfold renderProperty; simpl.
  - apply succeeds_bind; [apply recordParameter_succeeds|]. intros; apply succeeds_ret.
  - apply succeeds_ret.
Qed.

Lemma renderNodeElement_succeeds seen n :
  succeeds good (renderNodeElement explicit payload seen n).
Proof.
  unfold renderNodeElement. apply succeeds_bind.
  { apply succeeds_if; [apply succeeds_ret|apply nameOf_succeeds]. }
  intros name. apply succeeds_bind; [|intros; apply succeeds_ret].
  apply succeeds_if; [apply succeeds_ret|apply renderProperties_succeeds].
Qed.

Lemma renderRelationshipElement_succeeds seen r :
  succeeds good (renderRelationshipElement explicit payload seen r).
Proof.
  unfold renderRelationshipElement. apply succeeds_bind.
  { apply succeeds_if; [apply succeeds_ret|apply nameOf_succeeds]. }
  intros name. apply succeeds_bind; [|intros; apply succeeds_ret].
  apply succeeds_if; [apply succeeds_ret|apply renderProperties_succeeds].
Qed.

Lemma renderSteps_succeeds l : ∀ seen,
  succeeds good (renderSteps explicit payload seen l).
Proof.
  induction l as [|[r n] l IH]; intros seen; cbn [renderSteps];
    [apply succeeds_ret|].
  apply succeeds_bind; [apply renderRelationshipElement_succeeds|]. intros rs.
  apply succeeds_bind; [apply renderNodeElement_succeeds|]. intros ns.
  apply succeeds_bind; [apply IH|]. intros; apply succeeds_ret.
Qed.

Lemma render_succeeds t :
  complete t = true → succeeds good (render explicit payload t).
Proof.
  induction t as [v|p|text|p|assemble children IH] using Node_nested_ind;
    cbn [render complete]; intros Hc.
  - apply nameOf_succeeds.
  - apply succeeds_bind; [apply recordParameter_succeeds|]. intros; apply succeeds_ret.
  - apply succeeds_ret.
  - unfold renderPattern. destruct (dangling p); [done|].
    apply succeeds_bind; [apply renderNodeElement_succeeds|]. intros ns.
    apply succeeds_bind; [apply renderSteps_succeeds|]. intros; apply succeeds_ret.
  - apply succeeds_bind; [|intros; apply succeeds_ret].
    apply succeeds_mapM. apply Is_true_true, forallb_True in Hc.
    rewrite Forall_forall in IH, Hc. apply Forall_forall. intros t Ht.
    apply IH; [done|]. by apply Is_true_true, Hc.
Qed.

End AnonymousFacts.

Section EngineClaims.
Import Engine.
Context {value : Type} `{EqDecision value}.
Variable explicit : nat → option jsstring.
Variable payload : nat → value.

(** C6.  Within one compilation, that is one environment started fresh,
    the text a tree renders to is its layout under the names of the
    environment the compilation leaves: at every place of the tree, in a
    reference, in a pattern element or below any composite node, an
    occurrence of the Variable [v] is written as the one name
    [variables env !! v]; so all occurrences of the same Variable are written
    alike.  And no two distinct Variables hold the same name there.  The
    statement is not empty: a complete tree whose identities are all
    anonymous always renders, so a compilation is refused for a collision of
    names only when a name of the caller is involved. *)
Theorem variable_names_stable_and_distinct root pfx :
  (∀ txt (env : Environment value),
     render explicit payload root (fresh pfx) = Ok txt env →
     layout env root = Some txt ∧
     (∀ v w n, variables env !! v = Some n → variables env !! w = Some n → v = w)) ∧
  ((∀ i, explicit i = None) → complete root = true →
   ∃ txt (env : Environment value), render explicit payload root (fresh pfx) = Ok txt env).
Proof.
  split.
  - intros txt env H. split; [by eapply render_layout|].
    assert (wf explicit pfx env) as [_ Hu _]
      by (eapply render_wf; [apply wf_fresh|exact H]).
    intros v w n Hv Hw. apply (Hu v w n); by left.
  - intros Hanon Hc.
    destruct (render_succeeds explicit payload Hanon pfx root Hc (fresh pfx))
      as (txt & env & H & _); [apply generated_fresh|].
    by exists txt, env.
Qed.

(** C7.  Rendering a pattern that ends on a dangling relationship element
    fails with [IncompletePatternError], in every environment; rendering a
    complete pattern never fails with this error.  A pattern is dangling
    after [related] and complete again after [to]. *)
Theorem pattern_dangling_refused :
  (∀ p (env : Environment value),
     match dangling p with
     | Some _ => render explicit payload (PatternNode p) env = Throw IncompletePatternError
     | None => render explicit payload (PatternNode p) env ≠ Throw IncompletePatternError
     end) ∧
  (∀ r p, dangling (related r p) = Some r) ∧
  (∀ n r p, dangling (to n (related r p)) = None).
Proof.
  split; [|done]. intros p env. cbn [render]. unfold renderPattern.
  destruct (dangling p) as [r|]; [done|]. intros Hthrow.
  assert (throws_only (λ e, e ≠ IncompletePatternError)
            (do ns <- renderNodeElement explicit payload ∅ (first p) ;;
             do rest <- renderSteps explicit payload {[nodeVariable (first p)]} (steps p) ;;
             ret (ns ++ rest))) as Hq.
  { apply throws_bind; [by apply renderNodeElement_throws|]. intros ns.
    apply throws_bind; [by apply renderSteps_throws|]. intros rest e env'. done. }
  by apply (Hq env IncompletePatternError).
Qed.

(** C8.  A build with the prefix [pfx] that succeeds returns the layout of
    the tree under the names of the environment of the build, and every name
    in that environment, of a Variable or of a Parameter, is the name the
    caller gave to the identity, unchanged, when the caller gave one, and
    begins with [pfx] otherwise.  The names in the returned parameter map are
    those names of Parameters, and the names of the extra parameters of the
    caller.  The build of a complete tree whose identities are all anonymous
    always succeeds, with any prefix. *)
Theorem prefix_on_generated_names_only root pfx :
  (∀ (extra : list (jsstring * value)) r,
     build explicit payload root pfx extra = inr r →
     ∃ env : Environment value,
       render explicit payload root (fresh pfx) = Ok (text r) env ∧
       layout env root = Some (text r) ∧
       (∀ i n, named env i n →
          match explicit i with Some name => n = name | None => pfx `prefix_of` n end) ∧
       (∀ name val, params r !! name = Some val →
          (∃ p, parameters env !! p = Some (name, val)) ∨ (name, val) ∈ extra)) ∧
  ((∀ i, explicit i = None) → complete root = true →
   ∃ r, build explicit payload root pfx [] = inr r).
Proof.
  split.
  - intros extra r. unfold build.
    destruct (render explicit payload root (fresh pfx)) as [txt env|e] eqn:H; [|done].
    destruct (finalize extra env) as [e|ps] eqn:F; [done|]. intros [= <-]. simpl.
    exists env. split; [done|]. split; [by eapply render_layout|].
    assert (wf explicit pfx env) as [_ _ Hr]
      by (eapply render_wf; [apply wf_fresh|exact H]).
    split; [exact Hr|]. intros name val Hl. by eapply finalize_lookup.
  - intros Hanon Hc.
    destruct (render_succeeds explicit payload Hanon pfx root Hc (fresh pfx))
      as (txt & env & H & _); [apply generated_fresh|].
    unfold build. rewrite H. by eexists.
Qed.

End EngineClaims.

Section EngineWitnesses.
Import Engine.

Lemma variable_names_stable_and_distinct_witness :
  let movie := mkNodeElement 0 [js "Movie"] None false false in
  let actedIn := mkRelationshipElement 1 (Some (js "ACTED_IN")) Right None None false false in
  let root := Composite (join (js " RETURN "))
                [PatternNode (to movie (related actedIn (newPattern movie)));
                 VariableRef 0] in
  (∃ env : Environment nat,
     render (λ _, None) (λ _, 0) root (fresh (js "p_")) =
       Ok (js "(p_var0:Movie)-[p_var1:ACTED_IN]->(p_var0) RETURN p_var0") env ∧
     layout env root =
       Some (js "(p_var0:Movie)-[p_var1:ACTED_IN]->(p_var0) RETURN p_var0") ∧
     (∀ v w n, variables env !! v = Some n → variables env !! w = Some n → v = w)) ∧
  (∃ txt (env : Environment nat),
     render (λ _, None) (λ _, 0) root (fresh (js "p_")) = Ok txt env).
Proof.
  intros movie actedIn root.
  pose proof (variable_names_stable_and_distinct (value:=nat) (λ _, None) (λ _, 0)
                root (js "p_")) as [H1 H2].
  split.
  - eexists. split; [vm_compute; reflexivity|]. apply H1. vm_compute; reflexivity.
  - apply H2; [done|vm_compute; reflexivity].
Defined.

Lemma prefix_on_generated_names_only_witness :
  let explicit := λ i, match i with 0 => Some (js "n") | _ => None end in
  let root := Composite (join (js ", ")) [VariableRef 0; VariableRef 1; ParameterRef 2] in
  (∃ r : BuildResult (value:=nat),
     build explicit (λ _, 7) root (js "p_") [] = inr r ∧
     text r = js "n, p_var0, $p_param0" ∧
     ∃ env : Environment nat,
       render explicit (λ _, 7) root (fresh (js "p_")) = Ok (text r) env ∧
       layout env root = Some (text r) ∧
       (∀ i n, named env i n →
          match explicit i with
          | Some name => n = name
          | None => js "p_" `prefix_of` n
          end) ∧
       (∀ name val, params r !! name = Some val →
          (∃ p, parameters env !! p = Some (name, val)) ∨ (name, val) ∈ [])) ∧
  (∃ r : BuildResult (value:=nat), build (λ _, None) (λ _, 7) root (js "p_") [] = inr r).
Proof.
  intros explicit root. split.
  - eexists. split; [vm_compute; reflexivity|]. split; [vm_compute; reflexivity|].
    apply (proj1 (prefix_on_generated_names_only (value:=nat) explicit (λ _, 7)
                    root (js "p_")) []).
    vm_compute; reflexivity.
  - apply (proj2 (prefix_on_generated_names_only (value:=nat) (λ _, None) (λ _, 7)
                    root (js "p_"))); [done|vm_compute; reflexivity].
Defined.

End EngineWitnesses.

(** ** Rendering an equivalent tree *)

Section Simulation.
Import Engine.
Context {value : Type} `{EqDecision value}.
Context (σ : nat → nat) `{!Inj (=) (=) σ}.
Variables explicit1 explicit2 : nat → option jsstring.
Variables payload1 payload2 : nat → value.
Hypothesis explicit_σ : ∀ i, explicit2 (σ i) = explicit1 i.
Hypothesis payload_σ : ∀ i, payload2 (σ i) = payload1 i.

Local Abbreviation Env := (Environment value).
Local Abbreviation sim := (sim (value:=value)).

Lemma sim_ret {A} (a : A) : sim σ (ret (S:=Env) a) (ret a).
Proof. done. Qed.

Lemma sim_bind {A B} (c1 c2 : M Error Env A) (f1 f2 : A → M Error Env B) :
  sim σ c1 c2 → (∀ a, sim σ (f1 a) (f2 a)) → sim σ (bind c1 f1) (bind c2 f2).
Proof.
  intros Hc Hf env. unfold bind. rewrite Hc.
  destruct (c1 env) as [a env1|e]; [apply Hf|done].
Qed.

Lemma sim_mapM {A A' B} (f1 : A → M Error Env B) (f2 : A' → M Error Env B) g l :
  (∀ x, sim σ (f1 x) (f2 (g x))) → sim σ (mapM f1 l) (mapM f2 (g <$> l)).
Proof.
  intros Hf. induction l as [|x l IH]; [apply sim_ret|].
  cbn [mapM fmap list_fmap]. apply sim_bind; [apply Hf|]. intros y.
  apply sim_bind; [exact IH|]. intros ys. apply sim_ret.
Qed.

Lemma sim_mapM_Forall {A A' B} (f1 : A → M Error Env B) (f2 : A' → M Error Env B) g l :
  Forall (λ x, sim σ (f1 x) (f2 (g x))) l → sim σ (mapM f1 l) (mapM f2 (g <$> l)).
Proof.
  induction 1 as [|x l Hx Hl IH]; [apply sim_ret|].
  cbn [mapM fmap list_fmap]. apply sim_bind; [apply Hx|]. intros y.
  apply sim_bind; [exact IH|]. intros ys. apply sim_ret.
Qed.

Lemma sim_if {A} (b : bool) (c1 c2 d1 d2 : M Error Env A) :
  sim σ c1 c2 → sim σ d1 d2 → sim σ (if b then c1 else d1) (if b then c2 else d2).
Proof. by destruct b. Qed.

Lemma map_Exists_kmap {A} (P : nat → A → Prop) (Q : nat → A → Prop) (m : gmap nat A) :
  (∀ j x, Q (σ j) x ↔ P j x) →
  map_Exists Q (kmap σ m : gmap nat A) ↔ map_Exists P m.
Proof.
  intros HPQ. unfold map_Exists. split.
  - intros (j' & x & Hj & HQ). apply lookup_kmap_Some in Hj as (j & -> & Hj); [|done].
    exists j, x. split; [done|]. by apply HPQ.
  - intros (j & x & Hj & HP). exists (σ j), x. split; [|by apply HPQ].
    by rewrite lookup_kmap.
Qed.

Lemma collides_rename (env : Env) i name :
  collides (renameEnvironment σ env) (σ i) name = collides env i name.
Proof.
  unfold collides. cbn [renameEnvironment variables parameters]. f_equal.
  - apply bool_decide_ext, map_Exists_kmap. intros j x.
    split; intros [H1 H2]; (split; [|done]); [congruence|].
    intros Heq. by apply (inj σ) in Heq.
  - apply bool_decide_ext, map_Exists_kmap. intros j x.
    split; intros [H1 H2]; (split; [|done]); [congruence|].
    intros Heq. by apply (inj σ) in Heq.
Qed.

Lemma allocate_rename k i :
  sim σ (allocate explicit1 k i) (allocate explicit2 k (σ i)).
Proof.
  intros env. unfold allocate. rewrite explicit_σ.
  destruct (explicit1 i) as [name|].
  - rewrite collides_rename. by destruct (collides env i name).
  - assert (counter k (renameEnvironment σ env) = counter k env) as -> by by destruct k.
    cbn [renameEnvironment prefix]. rewrite collides_rename.
    destruct (collides env i _); [done|]. by destruct k.
Qed.

Lemma nameOf_rename v : sim σ (nameOf explicit1 v) (nameOf explicit2 (σ v)).
Proof.
  intros env. unfold nameOf. cbn [renameEnvironment variables].
  rewrite lookup_kmap by done.
  destruct (variables env !! v) as [name|]; [done|].
  change (mkEnvironment (prefix env) (kmap σ (variables env)) (kmap σ (parameters env))
            (variableCounter env) (parameterCounter env))
    with (renameEnvironment σ env).
  rewrite allocate_rename.
  destruct (allocate explicit1 VariableClass v env) as [name env'|]; [|done].
  cbn [lift renameEnvironment variables parameters prefix variableCounter
       parameterCounter]. unfold renameEnvironment; simpl. by rewrite kmap_insert.
Qed.

Lemma recordParameter_rename p val :
  sim σ (recordParameter explicit1 p val) (recordParameter explicit2 (σ p) val).
Proof.
  intros env. unfold recordParameter. cbn [renameEnvironment parameters].
  rewrite lookup_kmap by done.
  destruct (parameters env !! p) as [[name val']|].
  { by destruct (decide (val' = val)). }
  change (mkEnvironment (prefix env) (kmap σ (variables env)) (kmap σ (parameters env))
            (variableCounter env) (parameterCounter env))
    with (renameEnvironment σ env).
  rewrite allocate_rename.
  destruct (allocate explicit1 ParameterClass p env) as [name env'|]; [|done].
  cbn [lift renameEnvironment variables parameters prefix variableCounter
       parameterCounter]. unfold renameEnvironment; simpl. by rewrite kmap_insert.
Qed.

Lemma renderProperties_rename ps :
  sim σ (renderProperties explicit1 payload1 ps)
      (renderProperties explicit2 payload2 (renameProperties σ <$> ps)).
Proof.
  destruct ps as [kvs|]; [|apply sim_ret]. cbn [renderProperties fmap option_fmap option_map].
  apply sim_bind; [|intros; apply sim_ret]. unfold renameProperties.
  apply sim_mapM. intros [k [p|text]]; unfold renderProperty; simpl.
  - rewrite payload_σ. apply sim_bind; [apply recordParameter_rename|].
    intros; apply sim_ret.
  - apply sim_ret.
Qed.

Lemma seen_rename (seen : gset nat) v :
  bool_decide (σ v ∈ (set_map σ seen : gset nat)) = bool_decide (v ∈ seen).
Proof.
  apply bool_decide_ext. rewrite elem_of_map. split.
  - intros (w & Heq & Hw). by apply (inj σ) in Heq as ->.
  - intros Hv. by exists v.
Qed.

Lemma renderNodeElement_rename seen n :
  sim σ (renderNodeElement explicit1 payload1 seen n)
      (renderNodeElement explicit2 payload2 (set_map σ seen) (renameNodeElement σ n)).
Proof.
  unfold renderNodeElement. cbn [renameNodeElement nodeVariable nodeLabels
    nodeProperties nodeWithoutVariable nodeWithoutLabels].
  rewrite seen_rename. apply sim_bind.
  { apply sim_if; [apply sim_ret|apply nameOf_rename]. }
  intros name. apply sim_bind; [|intros; apply sim_ret].
  apply sim_if; [apply sim_ret|apply renderProperties_rename].
Qed.

Lemma renderRelationshipElement_rename seen r :
  sim σ (renderRelationshipElement explicit1 payload1 seen r)
      (renderRelationshipElement explicit2 payload2 (set_map σ seen)
         (renameRelationshipElement σ r)).
Proof.
  unfold renderRelationshipElement. cbn [renameRelationshipElement relVariable
    relType relDirection relLength relProperties relWithoutVariable relWithoutType].
  rewrite seen_rename. apply sim_bind.
  { apply sim_if; [apply sim_ret|apply nameOf_rename]. }
  intros name. apply sim_bind; [|intros; apply sim_ret].
  apply sim_if; [apply sim_ret|apply renderProperties_rename].
Qed.

Lemma renderSteps_rename l : ∀ seen,
  sim σ (renderSteps explicit1 payload1 seen l)
      (renderSteps explicit2 payload2 (set_map σ seen)
         ((λ rn, (renameRelationshipElement σ rn.1, renameNodeElement σ rn.2)) <$> l)).
Proof.
  induction l as [|[r n] l IH]; intros seen; [apply sim_ret|].
  cbn [renderSteps fmap list_fmap fst snd].
  apply sim_bind; [apply renderRelationshipElement_rename|]. intros rs.
  cbn [renameRelationshipElement relVariable renameNodeElement nodeVariable].
  replace ({[σ (relVariable r)]} ∪ set_map σ seen : gset nat)
    with (set_map σ ({[relVariable r]} ∪ seen) : gset nat)
    by (by rewrite set_map_union_L, set_map_singleton_L).
  apply sim_bind; [apply renderNodeElement_rename|]. intros ns.
  replace ({[σ (nodeVariable n)]} ∪ set_map σ ({[relVariable r]} ∪ seen) : gset nat)
    with (set_map σ ({[nodeVariable n]} ∪ ({[relVariable r]} ∪ seen)) : gset nat)
    by (by rewrite (set_map_union_L _ {[nodeVariable n]}), set_map_singleton_L).
  apply sim_bind; [apply IH|]. intros; apply sim_ret.
Qed.

Lemma renderPattern_rename p :
  sim σ (renderPattern explicit1 payload1 p)
      (renderPattern explicit2 payload2 (renamePattern σ p)).
Proof.
  unfold renderPattern. cbn [renamePattern dangling first steps].
  destruct (dangling p) as [r|]; [done|]. cbn [fmap option_fmap option_map].
  replace (∅ : gset nat) with (set_map σ (∅ : gset nat) : gset nat) at 2
    by apply set_map_empty.
  apply sim_bind; [apply renderNodeElement_rename|]. intros ns.
  cbn [renameNodeElement nodeVariable].
  replace ({[σ (nodeVariable (first p))]} : gset nat)
    with (set_map σ ({[nodeVariable (first p)]} : gset nat) : gset nat)
    by apply set_map_singleton_L.
  apply sim_bind; [apply renderSteps_rename|]. intros; apply sim_ret.
Qed.

Lemma render_rename t :
  sim σ (render explicit1 payload1 t) (render explicit2 payload2 (rename σ t)).
Proof.
  induction t as [v|p|text|p|assemble children IH] using Node_nested_ind;
    cbn [render rename].
  - apply nameOf_rename.
  - rewrite payload_σ. apply sim_bind; [apply recordParameter_rename|].
    intros; apply sim_ret.
  - apply sim_ret.
  - apply renderPattern_rename.
  - apply sim_bind; [|intros; apply sim_ret]. by apply sim_mapM_Forall.
Qed.

End Simulation.

Section BuildDeterminism.
Import Engine.
Context {value : Type} `{EqDecision value}.

(** Whether the extra parameters of the caller are accepted depends on the
    names in use only. *)
Lemma addExtra_dom (extra : list (jsstring * value)) : ∀ m1 m2 : gmap jsstring value,
  dom m1 = dom m2 →
  sum_map id (λ _, ()) (addExtra extra m1) = sum_map id (λ _, ()) (addExtra extra m2).
Proof.
  induction extra as [|[name val] extra IH]; intros m1 m2 Hdom; [done|].
  cbn [addExtra].
  destruct (m1 !! name) as [x|] eqn:E1, (m2 !! name) as [y|] eqn:E2.
  - done.
  - exfalso. apply not_elem_of_dom in E2. apply E2. rewrite <-Hdom.
    apply elem_of_dom. by exists x.
  - exfalso. apply not_elem_of_dom in E1. apply E1. rewrite Hdom.
    apply elem_of_dom. by exists y.
  - apply IH. by rewrite !dom_insert_L, Hdom.
Qed.

Lemma finalize_rename σ `{!Inj (=) (=) σ} extra (env : Environment value) :
  sum_map id (λ _, ()) (finalize extra (renameEnvironment σ env)) =
  sum_map id (λ _, ()) (finalize extra env).
Proof.
  unfold finalize. apply addExtra_dom. rewrite !dom_list_to_map_L.
  cbn [renameEnvironment parameters]. apply list_to_set_perm_L.
  rewrite map_to_list_kmap by done. rewrite <-!list_fmap_compose.
  by rewrite (list_fmap_ext _ (fst ∘ (λ e : nat * (jsstring * value), e.2)))
    by (by intros i [j [n v]]).
Qed.

(** C5.  Two equivalent trees built from different identity objects (the
    second tree is the first with every Variable and Parameter object
    replaced by another one, distinct objects by distinct objects, with the
    same explicit names and values) compile to the same text, or fail with
    the same error, for every prefix and every extra parameters. *)
Theorem build_text_independent_of_identities
    (σ : nat → nat) (explicit1 explicit2 : nat → option jsstring)
    (payload1 payload2 : nat → value) root pfx extra :
  Inj (=) (=) σ →
  (∀ i, explicit2 (σ i) = explicit1 i) →
  (∀ i, payload2 (σ i) = payload1 i) →
  sum_map id text (build explicit2 payload2 (rename σ root) pfx extra) =
  sum_map id text (build explicit1 payload1 root pfx extra).
Proof.
  intros Hinj Hexp Hpay. unfold build.
  pose proof (render_rename σ explicit1 explicit2 payload1 payload2 Hexp Hpay root
                (fresh pfx)) as Hr.
  assert (renameEnvironment σ (fresh (value:=value) pfx) = fresh pfx) as Hfresh.
  { unfold fresh, renameEnvironment. simpl. by rewrite !kmap_empty. }
  rewrite Hfresh in Hr. rewrite Hr.
  destruct (render explicit1 payload1 root (fresh pfx)) as [txt env|e]; [|done].
  cbn [lift]. pose proof (finalize_rename σ extra env) as Hf.
  destruct (finalize extra (renameEnvironment σ env)), (finalize extra env);
    simpl in *; congruence.
Qed.

End BuildDeterminism.

Section BuildWitness.
Import Engine.

Lemma build_text_independent_of_identities_witness :
  sum_map id text
    (build (value:=nat) (λ i, if decide (i = 11) then Some (js "m") else None) (λ _, 7)
       (rename (λ i, i + 10)
          (Composite (join (js " RETURN "))
             [PatternNode (newPattern (mkNodeElement 0 [js "Movie"] None false false));
              VariableRef 1; ParameterRef 2]))
       (js "") []) =
  sum_map id text
    (build (value:=nat) (λ i, if decide (i = 1) then Some (js "m") else None) (λ _, 7)
       (Composite (join (js " RETURN "))
          [PatternNode (newPattern (mkNodeElement 0 [js "Movie"] None false false));
           VariableRef 1; ParameterRef 2])
       (js "") []).
Proof.
  apply (build_text_independent_of_identities (value:=nat) (λ i, i + 10)).
  - intros i j Hij. lia.
  - intros i. repeat case_decide; (done || lia).
  - done.
Defined.

End BuildWitness.

(** * Further properties of the sources *)

(** ** The columns of a projection *)

Section ProjectionFacts.
Import ProjectionClass.
Context {Err Env Expr : Type}.
Variable serializeColumn : ProjectionColumn (Expr:=Expr) → M Err Env jsstring.

Lemma mapM_cons {A B} (f : A → M Err Env B) x l env :
  mapM f (x :: l) env =
  match f x env with
  | Ok y env0 =>
      match mapM f l env0 with
      | Ok ys env1 => Ok (y :: ys) env1
      | Throw e => Throw e
      end
  | Throw e => Throw e
  end.
Proof.
  change (mapM f (x :: l)) with (bind (f x) (λ y, bind (mapM f l) (λ ys, ret (y :: ys)))).
  unfold bind, ret. destruct (f x env) as [y env0|e]; [|done].
  by destruct (mapM f l env0).
Qed.

Lemma mapM_app {A B} (f : A → M Err Env B) l1 l2 env :
  mapM f (l1 ++ l2) env =
  match mapM f l1 env with
  | Ok ys1 env1 =>
      match mapM f l2 env1 with
      | Ok ys2 env2 => Ok (ys1 ++ ys2) env2
      | Throw e => Throw e
      end
  | Throw e => Throw e
  end.
Proof.
  revert env. induction l1 as [|x l1 IH]; intros env.
  - change (mapM f [] env) with (Ok (Err:=Err) (@nil B) env).
    cbn [app]. by destruct (mapM f l2 env).
  - rewrite <-app_comm_cons, !mapM_cons.
    destruct (f x env) as [y env0|e]; [|done]. rewrite IH.
    destruct (mapM f l1 env0) as [ys1 env1|e]; [|done].
    by destruct (mapM f l2 env1).
Qed.

Lemma join_cons_cons sep x y l : join sep (x :: y :: l) = x ++ sep ++ join sep (y :: l).
Proof. done. Qed.

End ProjectionFacts.

Section ProjectionExtras.
Import ProjectionClass.

(** X1.  [addColumns] composes: adding [cs1] and then [cs2] is adding
    [cs1 ++ cs2]; adding nothing changes nothing; and the columns a
    projection had stay, in front and in their order. *)
Theorem addColumns_compose {Expr : Type}
    (cs1 cs2 : list (ColumnArg (Expr:=Expr))) (this : Projection) :
  addColumns cs2 (addColumns cs1 this) = addColumns (cs1 ++ cs2) this ∧
  addColumns [] this = this ∧
  columns this `prefix_of` columns (addColumns cs1 this).
Proof.
  rewrite !addColumns_spec. cbn [columns isStar].
  rewrite plain_columns_app, has_star_app. split; [|split].
  - by rewrite (assoc_L (++)), orb_assoc.
  - destruct this as [cols star]. cbn. by rewrite app_nil_r, orb_false_r.
  - by eexists.
Qed.

(** X2.  The columns added by [addColumns] are rendered after the columns
    the projection had, in the environment these leave behind; the [*]
    column is written when the projection had it or an argument is ["*"]. *)
Theorem getCypher_after_addColumns {Err Env Expr : Type}
    (serializeColumn : ProjectionColumn (Expr:=Expr) → M Err Env jsstring)
    (this : Projection) cs env strs1 env1 strs2 env2 :
  mapM serializeColumn (columns this) env = Ok strs1 env1 →
  mapM serializeColumn (plain_columns cs) env1 = Ok strs2 env2 →
  ProjectionClass.getCypher serializeColumn (addColumns cs this, env) =
    Ok (join (js ", ")
          (if isStar this || has_star cs
           then js "*" :: strs1 ++ strs2 else strs1 ++ strs2))
       (addColumns cs this, env2).
Proof.
  intros H1 H2. rewrite getCypher_run, addColumns_spec. cbn [columns isStar].
  by rewrite mapM_app, H1, H2.
Qed.

Lemma getCypher_after_addColumns_witness :
  ProjectionClass.getCypher (ProjectionAlt.serializeColumn (Err:=Empty_set) (Env:=()) ret)
    (addColumns [Col (Plain (js "b")); Star] (new [Col (Plain (js "a"))]), ()) =
  Ok (js "*, a, b")
     (addColumns [Col (Plain (js "b")); Star] (new [Col (Plain (js "a"))]), ()).
Proof.
  exact (getCypher_after_addColumns
           (ProjectionAlt.serializeColumn (Err:=Empty_set) (Env:=()) ret)
           (new [Col (Plain (js "a"))]) [Col (Plain (js "b")); Star] ()
           [js "a"] () [js "b"] () eq_refl eq_refl).
Defined.

(** X3.  The star costs nothing but its text: a projection with the star
    renders as the same projection without it, with [*] in front, separated
    by [", "] when there is a column. *)
Theorem getCypher_star_prefix {Err Env Expr : Type}
    (serializeColumn : ProjectionColumn (Expr:=Expr) → M Err Env jsstring)
    cols env txt env' :
  ProjectionClass.getCypher serializeColumn (mkProjection cols false, env) =
    Ok txt (mkProjection cols false, env') →
  ProjectionClass.getCypher serializeColumn (mkProjection cols true, env) =
    Ok (match cols with [] => js "*" | _ :: _ => js "*, " ++ txt end)
       (mkProjection cols true, env').
Proof.
  rewrite !getCypher_run. cbn [columns isStar].
  destruct (mapM serializeColumn cols env) as [strs env1|e] eqn:E; [|done].
  intros [= <- <-]. destruct cols as [|c cols].
  - by injection E as <- <-.
  - destruct strs as [|x strs]; [|done].
    rewrite mapM_cons in E.
    destruct (serializeColumn c env) as [y env0|]; [|done].
    by destruct (mapM serializeColumn cols env0).
Qed.

Lemma getCypher_star_prefix_witness :
  ProjectionClass.getCypher (Projection.serializeColumn (Err:=Empty_set) (Env:=()) ret)
    (mkProjection [Plain (js "a"); Plain (js "b")] true, ()) =
  Ok (js "*, a, b") (mkProjection [Plain (js "a"); Plain (js "b")] true, ()).
Proof.
  exact (getCypher_star_prefix
           (Projection.serializeColumn (Err:=Empty_set) (Env:=()) ret)
           [Plain (js "a"); Plain (js "b")] () (js "a, b") () eq_refl).
Defined.

(** X4.  Columns are serialized from left to right and the first failure
    ends the rendering: when the columns before [c] serialize and [c]
    throws, [getCypher] throws the same error, whatever follows [c]. *)
Theorem getCypher_first_failure {Err Env Expr : Type}
    (serializeColumn : ProjectionColumn (Expr:=Expr) → M Err Env jsstring)
    (this : Projection) before c after env strs env1 e :
  columns this = before ++ c :: after →
  mapM serializeColumn before env = Ok strs env1 →
  serializeColumn c env1 = Throw e →
  ProjectionClass.getCypher serializeColumn (this, env) = Throw e.
Proof.
  intros Hcols Hbefore Hc. rewrite getCypher_run, Hcols, mapM_app, Hbefore.
  by rewrite mapM_cons, Hc.
Qed.

Lemma getCypher_first_failure_witness :
  ProjectionClass.getCypher
    (Projection.serializeColumn (Err:=nat) (Env:=())
       (λ e : option jsstring, match e with Some s => ret s | None => throw 7 end))
    (new [Col (Plain (Some (js "a"))); Col (Plain None); Col (Plain (Some (js "b")))], ()) =
  Throw 7.
Proof.
  exact (getCypher_first_failure
           (Projection.serializeColumn (Err:=nat) (Env:=())
              (λ e : option jsstring, match e with Some s => ret s | None => throw 7 end))
           (new [Col (Plain (Some (js "a"))); Col (Plain None); Col (Plain (Some (js "b")))])
           [Plain (Some (js "a"))] (Plain None) [Plain (Some (js "b"))] ()
           [js "a"] () 7 eq_refl eq_refl eq_refl).
Defined.

(** X5.  A projection without columns renders without calling anything: the
    text is [*] or empty and the environment is the one it was given. *)
Theorem getCypher_no_columns {Err Env Expr : Type}
    (serializeColumn : ProjectionColumn (Expr:=Expr) → M Err Env jsstring)
    (this : Projection) env :
  columns this = [] →
  ProjectionClass.getCypher serializeColumn (this, env) =
    Ok (if isStar this then js "*" else js "") (this, env).
Proof.
  intros Hcols. rewrite getCypher_run, Hcols. cbn [mapM]. unfold ret.
  by destruct (isStar this).
Qed.

Lemma getCypher_no_columns_witness :
  ProjectionClass.getCypher (Projection.serializeColumn (Err:=Empty_set) (Env:=()) ret)
    (new [Star; Star], ()) = Ok (js "*") (new [Star; Star], ()).
Proof.
  exact (getCypher_no_columns
           (Projection.serializeColumn (Err:=Empty_set) (Env:=()) ret)
           (new [Star; Star]) () eq_refl).
Defined.

End ProjectionExtras.

(** ** What the serializers leave alone *)

Section SerializerFacts.

Lemma occurs_cons w c text : occurs w text → occurs w (c :: text).
Proof. intros (pre & post & ->). by exists (c :: pre), post. Qed.

Lemma occurs_app_r w u text : occurs w text → occurs w (u ++ text).
Proof.
  intros (pre & post & ->). exists (u ++ pre), post. by rewrite <-(assoc_L (++)).
Qed.

(** Without an occurrence there is nothing but copied units. *)
Lemma targets_without_occurrence ps :
  Forall call_shape ps →
  (∀ f, accessor f → ¬ occurs (js "." ++ f) (sources ps)) →
  targets ps = sources ps.
Proof.
  induction 1 as [|p ps Hp Hps IH]; intros Hno; [done|].
  rewrite sources_cons, targets_cons. destruct p as [c|f src arg].
  - cbn [source target]. f_equal. apply IH. intros f Hf Hocc.
    apply (Hno f Hf). rewrite sources_cons. by apply occurs_cons.
  - exfalso. destruct Hp as (Hf & body & -> & _). apply (Hno f Hf).
    rewrite sources_cons. cbn [source]. exists body, (sources ps).
    by rewrite <-!(assoc_L (++)).
Qed.

Lemma fork_without_occurrence text :
  (∀ f, accessor f → ¬ occurs (js "." ++ f) text) →
  pass (js "labels") (pass (js "id") text) = text.
Proof.
  intros Hno. destruct (fork_decompose text) as (ps & Hs & <- & Hok & _).
  rewrite <-Hs. apply targets_without_occurrence; [|by rewrite Hs].
  eapply Forall_impl; [exact Hok|]. apply fork_piece_shape.
Qed.

Lemma alt_without_occurrence v text :
  (∀ f, accessor f → ¬ occurs (js "." ++ f) text) → alt_pass v text = text.
Proof.
  intros Hno. destruct (alt_decompose v text) as (ps & Hs & <- & Hok & _).
  rewrite <-Hs. apply targets_without_occurrence; [|by rewrite Hs].
  eapply Forall_impl; [exact Hok|]. apply alt_piece_shape.
Qed.



(** [s.split(sep)] is never empty, and its first element is the text before
    the first separator. *)
Lemma split_head sep s :
  ∃ w ws rest, split sep s = w :: ws ∧ s = w ++ rest ∧ (sep ∉ w) ∧
               (rest = [] ∨ ∃ r, rest = sep :: r).
Proof.
  induction s as [|c s IH].
  2: destruct IH as (w & ws & rest & Hsp & Hs & Hw & Hrest).
  - exists [], [], []. repeat split; [apply not_elem_of_nil|by left].
  - cbn [split]. destruct (N.eqb_spec c sep) as [->|Hne].
    + exists [], (split sep s), (sep :: s).
      repeat split; [apply not_elem_of_nil|right; by exists s].
    + rewrite Hsp. exists (c :: w), ws, rest. repeat split; [by rewrite Hs| |done].
      apply not_elem_of_cons. split; [congruence|done].
Qed.


End SerializerFacts.

Section SerializerExtras.
Import ProjectionClass.

(** X6.  A rendered text in which neither [.id] nor [.labels] occurs comes
    out of both serializers as it went in, followed by the alias suffix. *)
Theorem serializeColumn_without_occurrence {Err Env Expr : Type}
    (compile : Expr → M Err Env jsstring) col env text env1 suffix env2 :
  compile (column_expr col) env = Ok text env1 →
  alias_suffix compile col env1 = Ok suffix env2 →
  ¬ occurs (js ".id") text → ¬ occurs (js ".labels") text →
  Projection.serializeColumn compile col env = Ok (text ++ suffix) env2 ∧
  ProjectionAlt.serializeColumn compile col env = Ok (text ++ suffix) env2.
Proof.
  intros H1 H2 Hid Hlabels.
  assert (Hno : ∀ f, accessor f → ¬ occurs (js "." ++ f) text)
    by (by intros f [-> | ->]).
  split.
  - rewrite (fork_serializeColumn compile col env text env1 suffix env2 H1 H2).
    by rewrite fork_without_occurrence.
  - rewrite (alt_serializeColumn compile col env text env1 suffix env2 H1 H2).
    destruct (alt_enabled col text); [|done]. by rewrite alt_without_occurrence.
Qed.

Lemma serializeColumn_without_occurrence_witness :
  Projection.serializeColumn (Err:=Empty_set) (Env:=()) ret
    (Aliased (js "a") (AliasString (js "b"))) () = Ok (js "a" ++ js " AS b") () ∧
  ProjectionAlt.serializeColumn (Err:=Empty_set) (Env:=()) ret
    (Aliased (js "a") (AliasString (js "b"))) () = Ok (js "a" ++ js " AS b") ().
Proof.
  apply (serializeColumn_without_occurrence (Err:=Empty_set) (Env:=()) ret
           (Aliased (js "a") (AliasString (js "b"))) () (js "a") () (js " AS b") ()
           eq_refl eq_refl).
  - intros ([|c [|d pre]] & post & H); vm_compute in H; discriminate H.
  - intros ([|c [|d pre]] & post & H); vm_compute in H; discriminate H.
Defined.

(** X7.  In [Projection.ts] the two branches of [serializeColumn] treat the
    expression alike: an aliased column is the plain column of the same
    expression followed by [ AS ] and the alias, also when something
    throws. *)
Theorem serializeColumn_branches_agree {Err Env Expr : Type}
    (compile : Expr → M Err Env jsstring) e alias env :
  Projection.serializeColumn compile (Aliased e alias) env =
  bind (Projection.serializeColumn compile (Plain e))
    (λ s, bind (aliasStr compile alias) (λ a, ret (s ++ js " AS " ++ a))) env.
Proof.
  cbn [Projection.serializeColumn]. unfold bind, ret.
  by destruct (compile e env).
Qed.

(** X8.  For an aliased column, the second serializer names in every call
    it writes the rendered text up to its first space, the whole text when
    it has no space: with [name] that first word, every occurrence of [.id]
    in the rendered text becomes [id: id(name)] and every occurrence of
    [.labels] becomes [labels: labels(name)], the rest is copied, and
    [ AS ] and the alias follow. *)
Theorem aliased_name_is_first_word {Err Env Expr : Type}
    (compile : Expr → M Err Env jsstring) e alias env text env1 a env2 :
  compile e env = Ok text env1 →
  aliasStr compile alias env1 = Ok a env2 →
  ∃ name rest,
    text = name ++ rest ∧ (32%N ∉ name) ∧ (rest = [] ∨ ∃ r, rest = 32%N :: r) ∧
    ProjectionAlt.serializeColumn compile (Aliased e alias) env =
      Ok (targets (alt_scan name text) ++ js " AS " ++ a) env2 ∧
    sources (alt_scan name text) = text ∧
    Forall (alt_piece name) (alt_scan name text) ∧
    covers (alt_scan name text) text.
Proof.
  intros H1 H2.
  destruct (split_head 32%N text) as (w & ws & rest & Hsp & Hs & Hw & Hr).
  exists w, rest. split; [done|]. split; [done|]. split; [done|].
  destruct (alt_scan_spec w text) as (Hsrc & Ht & Hok & Hcov).
  split; [|done]. rewrite Ht.
  rewrite (alt_serializeColumn compile (Aliased e alias) env text env1 (js " AS " ++ a) env2).
  - cbn [alt_enabled alt_name]. by rewrite Hsp.
  - exact H1.
  - cbn [alias_suffix]. unfold bind, ret. by rewrite H2.
Qed.

Lemma aliased_name_is_first_word_witness :
  ∃ name rest,
    js "n.id + m.id" = name ++ rest ∧ (32%N ∉ name) ∧
    (rest = [] ∨ ∃ r, rest = 32%N :: r) ∧
    ProjectionAlt.serializeColumn (Err:=Empty_set) (Env:=()) ret
      (Aliased (js "n.id + m.id") (AliasString (js "x"))) () =
      Ok (targets (alt_scan name (js "n.id + m.id")) ++ js " AS " ++ js "x") () ∧
    sources (alt_scan name (js "n.id + m.id")) = js "n.id + m.id" ∧
    Forall (alt_piece name) (alt_scan name (js "n.id + m.id")) ∧
    covers (alt_scan name (js "n.id + m.id")) (js "n.id + m.id").
Proof.
  exact (aliased_name_is_first_word (Err:=Empty_set) (Env:=()) ret
           (js "n.id + m.id") (AliasString (js "x")) () (js "n.id + m.id") ()
           (js "x") () eq_refl eq_refl).
Defined.


(** X10.  A plain column whose rendered text begins with a brace, a map
    literal or a map projection, is returned by the second serializer as it
    was rendered, with its [.id] and [.labels] in place. *)
Theorem plain_brace_column_unchanged {Err Env Expr : Type}
    (compile : Expr → M Err Env jsstring) e env rest env1 :
  compile e env = Ok (js "{" ++ rest) env1 →
  ProjectionAlt.serializeColumn compile (Plain e) env = Ok (js "{" ++ rest) env1.
Proof.
  intros H. cbn [ProjectionAlt.serializeColumn]. unfold bind. rewrite H.
  assert (ProjectionAlt.variableMatch (js "{" ++ rest) = Some []) as ->; [|done].
  unfold ProjectionAlt.variableMatch. js_eval. cbn [app split].
  rewrite N.eqb_refl. cbn [lookup list_lookup mbind option_bind split].
  cbn [slice_last2_head length Nat.sub lookup list_lookup mbind option_bind].
  reflexivity.
Qed.

Lemma plain_brace_column_unchanged_witness :
  ProjectionAlt.serializeColumn (Err:=Empty_set) (Env:=()) ret
    (Plain (js "{" ++ js " id: this0.id, labels: this0.labels }")) () =
  Ok (js "{" ++ js " id: this0.id, labels: this0.labels }") ().
Proof.
  exact (plain_brace_column_unchanged (Err:=Empty_set) (Env:=()) ret
           (js "{" ++ js " id: this0.id, labels: this0.labels }") ()
           (js " id: this0.id, labels: this0.labels }") () eq_refl).
Defined.

End SerializerExtras.

(** ** Types and type predicates *)

Section TypeFacts.

Lemma BaseTypes_inj b1 b2 : IsType.BaseTypes b1 = IsType.BaseTypes b2 → b1 = b2.
Proof.
  destruct b1, b2; intros H; first [reflexivity | vm_compute in H; discriminate H].
Qed.

Lemma BaseTypes_not_list b s : IsType.BaseTypes b ≠ js "LIST<" ++ s.
Proof. destruct b; intros H; vm_compute in H; discriminate H. Qed.

Lemma typeText_inj t1 : ∀ t2, typeText t1 = typeText t2 → t1 = t2.
Proof.
  induction t1 as [b1|t1 IH]; intros [b2|t2]; cbn [typeText]; intros H.
  - f_equal. by apply BaseTypes_inj.
  - by apply BaseTypes_not_list in H.
  - symmetry in H. by apply BaseTypes_not_list in H.
  - f_equal. apply IH. apply app_inv_head in H. by apply app_inv_tail in H.
Qed.

End TypeFacts.

Section TypeExtras.

(** X11.  Compiling a type never fails and leaves the environment as it
    was, and the text tells the type: two types that compile to the same
    text are the same type. *)
Theorem compileType_injective {Err Env : Type} t1 t2 (env1 env2 : Env) :
  (∃ s1, IsType.compileType (Err:=Err) t1 env1 = Ok s1 env1) ∧
  (∀ s e1 e2, IsType.compileType (Err:=Err) t1 env1 = Ok s e1 →
              IsType.compileType (Err:=Err) t2 env2 = Ok s e2 → t1 = t2).
Proof.
  split; [exists (typeText t1); apply compileType_pure|].
  intros s e1 e2. rewrite !compileType_pure. intros [= <- _] [= H _].
  by apply typeText_inj.
Qed.

Lemma compileType_injective_witness :
  IsType.list (IsType.Base IsType.STRING) = IsType.ListType (IsType.Base IsType.STRING).
Proof.
  exact (proj2 (compileType_injective (Err:=Empty_set) (Env:=())
                  (IsType.list (IsType.Base IsType.STRING))
                  (IsType.ListType (IsType.Base IsType.STRING)) () ())
           (js "LIST<STRING>") () () eq_refl eq_refl).
Defined.

(** X12.  [getCypher] of a type predicate fails exactly when compiling its
    expression fails, and with the same error; the types are only compiled
    once the expression is. *)
Theorem IsType_getCypher_failure {Err Env Expr : Type}
    (compile : Expr → M Err Env jsstring) (this : IsType.IsType) env :
  match compile (IsType.expr this) env with
  | Throw e => IsType.getCypher compile (this, env) = Throw e
  | Ok _ env1 => ∃ txt, IsType.getCypher compile (this, env) = Ok txt (this, env1)
  end.
Proof.
  rewrite IsType_getCypher_run.
  destruct (compile (IsType.expr this) env); [by eexists|done].
Qed.

End TypeExtras.
